(** * The automation engine of [src/main.py]: [execute_flow]

    A shallow embedding of the handler of [POST /api/automation/execute]
    (lines 392-438 of [src/main.py]) together with the Python run-time
    notions it relies on: JSON-shaped values, truthiness, [==], hashing
    of dictionary keys, [str]/[repr] as used by f-strings, and [eval].

    Conventions.
    - Requests are JSON documents, so every Python object that reaches the
      handler is a [value].  JSON numbers are restricted to integers;
      floating point numbers are outside this model.
    - Strings are byte strings holding UTF-8.
    - The handler reads a node's kind from the key ["type"]. *)

From stdpp Require Import gmap strings list fin_maps pretty.

Open Scope string_scope.
Open Scope Z_scope.

(** ** Values *)

#[local] Set Warnings "-register-all".

Inductive value : Type :=
| VNone
| VBool (b : bool)
| VInt (n : Z)
| VStr (s : string)
| VList (l : list value)
| VDict (d : list (string * value)).

(** A Python [dict] with string keys, in insertion order. *)
Abbreviation dictT := (list (string * value)).

Fixpoint dict_get {A : Type} (k : string) (d : list (string * A)) : option A :=
  match d with
  | [] => None
  | (k', v) :: d' => if String.eqb k k' then Some v else dict_get k d'
  end.

(** [d.get(k, default)] *)
Definition get_default (k : string) (d : dictT) (default : value) : value :=
  match dict_get k d with
  | Some v => v
  | None => default
  end.

(** Exceptions.  [NotModelled] is no Python exception: it marks an
    expression handed to [eval] that lies outside the fragment of
    [PyExpr.eval_source] below, about which nothing is asserted. *)
Inductive exn : Type :=
| TypeError
| KeyError
| AttributeError
| IndexError
| SystemExit
| NotModelled.

(** [bool(v)] *)
Definition py_truthy (v : value) : bool :=
  match v with
  | VNone => false
  | VBool b => b
  | VInt n => negb (n =? 0)
  | VStr s => negb (String.eqb s "")
  | VList l => match l with [] => false | _ => true end
  | VDict d => match d with [] => false | _ => true end
  end.

(** [a == b] *)
Fixpoint py_eq (a b : value) {struct a} : bool :=
  match a, b with
  | VNone, VNone => true
  | VBool x, VBool y => Bool.eqb x y
  | VBool x, VInt n => Z.b2z x =? n
  | VInt n, VBool y => n =? Z.b2z y
  | VInt m, VInt n => m =? n
  | VStr s, VStr t => String.eqb s t
  | VList l, VList l' =>
      (fix go (l l' : list value) : bool :=
         match l, l' with
         | [], [] => true
         | x :: l, y :: l' => py_eq x y && go l l'
         | _, _ => false
         end) l l'
  | VDict d, VDict d' =>
      (length d =? length d')%nat &&
      (fix go (d : list (string * value)) : bool :=
         match d with
         | [] => true
         | (k, v) :: d =>
             match dict_get k d' with
             | Some v' => py_eq v v'
             | None => false
             end && go d
         end) d
  | _, _ => false
  end.

(** Keys of a [dict] or members of a [set]: hashable values up to [==].
    [True] and [1] are the same key, as are [False] and [0]. *)
Inductive hkey : Type :=
| KNone
| KNum (n : Z)
| KStr (s : string).

#[global] Instance hkey_eq_dec : EqDecision hkey.
Proof. solve_decision. Defined.

#[global] Instance hkey_countable : Countable hkey.
Proof.
  refine (inj_countable'
    (λ k, match k with
          | KNone => inl ()
          | KNum n => inr (inl n)
          | KStr s => inr (inr s)
          end)
    (λ x, match x with
          | inl _ => KNone
          | inr (inl n) => KNum n
          | inr (inr s) => KStr s
          end) _).
  by intros [].
Defined.

(** [hash(v)]: lists and dicts are unhashable ([TypeError]). *)
Definition py_hash (v : value) : option hkey :=
  match v with
  | VNone => Some KNone
  | VBool b => Some (KNum (Z.b2z b))
  | VInt n => Some (KNum n)
  | VStr s => Some (KStr s)
  | VList _ | VDict _ => None
  end.

(** ** [str] and [repr] *)

Definition chr (n : nat) : Ascii.ascii := Ascii.ascii_of_nat n.
Definition squote : Ascii.ascii := chr 39.
Definition dquote : Ascii.ascii := chr 34.
Definition backslash : Ascii.ascii := chr 92.

Fixpoint has_char (c : Ascii.ascii) (s : string) : bool :=
  match s with
  | EmptyString => false
  | String c' s' => Ascii.eqb c c' || has_char c s'
  end.

Definition hex_digit (n : nat) : Ascii.ascii :=
  if (n <? 10)%nat then chr (48 + n) else chr (87 + n).

(** One character of [repr(s)], for the chosen quote.  Bytes above 127
    belong to UTF-8 sequences and are copied, that is, code points
    outside ASCII are taken to be printable. *)
Definition repr_char (quote c : Ascii.ascii) : string :=
  let n := Ascii.nat_of_ascii c in
  if Ascii.eqb c quote || Ascii.eqb c backslash then String backslash (String c "")
  else if (n =? 9)%nat then String backslash "t"
  else if (n =? 10)%nat then String backslash "n"
  else if (n =? 13)%nat then String backslash "r"
  else if (n <? 32)%nat || (n =? 127)%nat then
    String backslash ("x" +:+ String (hex_digit (n / 16)) (String (hex_digit (n mod 16)) ""))
  else String c "".

Fixpoint repr_chars (quote : Ascii.ascii) (s : string) : string :=
  match s with
  | EmptyString => ""
  | String c s' => repr_char quote c +:+ repr_chars quote s'
  end.

Definition repr_str (s : string) : string :=
  let quote := if has_char squote s && negb (has_char dquote s) then dquote else squote in
  String quote (repr_chars quote s +:+ String quote "").

Definition join_comma (l : list string) : string :=
  String.concat ", " l.

Fixpoint py_repr (v : value) : string :=
  match v with
  | VNone => "None"
  | VBool true => "True"
  | VBool false => "False"
  | VInt n => pretty n
  | VStr s => repr_str s
  | VList l => "[" +:+ join_comma (map py_repr l) +:+ "]"
  | VDict d =>
      "{" +:+ join_comma (map (λ kv, repr_str kv.1 +:+ ": " +:+ py_repr kv.2) d) +:+ "}"
  end.

(** [str(v)], which is what an f-string field [{v}] renders. *)
Definition py_str (v : value) : string :=
  match v with
  | VStr s => s
  | _ => py_repr v
  end.

(** ** The outcome of a run *)

(** A computation returns, raises, exhausts the fuel of the model, or
    never returns because an [eval] it waits for never does. *)
Inductive run (A : Type) : Type :=
| Done (a : A)
| Raised (e : exn)
| OutOfFuel
| Hangs.

Arguments Done {A} a.
Arguments Raised {A} e.
Arguments OutOfFuel {A}.
Arguments Hangs {A}.

Definition bind {A B : Type} (m : run A) (f : A → run B) : run B :=
  match m with
  | Done a => f a
  | Raised e => Raised e
  | OutOfFuel => OutOfFuel
  | Hangs => Hangs
  end.

Notation "'let*' x := m 'in' k" := (bind m (λ x, k))
  (at level 10, x name, m at level 100, k at level 200).

(** What [eval(source, {}, {"ctx": ctx})] can do.  The source may call
    methods of [ctx], so the context comes back possibly changed; other
    effects of the evaluated source are not modelled. *)
Inductive eval_outcome : Type :=
| EvValue (v : value) (ctx' : dictT)     (* returns an object whose truth value is that of [v] *)
| EvError (e : exn) (ctx' : dictT)       (* raises a subclass of [Exception] *)
| EvEscape (e : exn)                     (* raises past [except Exception] *)
| EvHangs.                               (* never returns *)

(** State of one call: the [logs] list, the context [ctx], and a ghost
    counter of the iterations of the [while] loop entered so far. *)
Record estate : Type := MkState {
  st_logs : list string;
  st_ctx : dictT;
  st_steps : nat
}.

(** [obj.get(k, default)]: only a [dict] has the method. *)
Definition method_get (obj : value) (k : string) (default : value) : run value :=
  match obj with
  | VDict d => Done (get_default k d default)
  | _ => Raised AttributeError
  end.

(** [e[k]] on a [dict]. *)
Definition subscript (e : dictT) (k : string) : run value :=
  match dict_get k e with
  | Some v => Done v
  | None => Raised KeyError
  end.

Definition node_id (n : dictT) : value := get_default "id" n VNone.
Definition node_type (n : dictT) : value := get_default "type" n VNone.

(** [{n.get("id"): n for n in payload.nodes}], filled left to right. *)
Fixpoint build_node_map (nodes : list dictT) (m : gmap hkey dictT)
  : run (gmap hkey dictT) :=
  match nodes with
  | [] => Done m
  | n :: ns =>
      match py_hash (node_id n) with
      | Some k => build_node_map ns (<[k := n]> m)
      | None => Raised TypeError
      end
  end.

Definition is_trigger (n : dictT) : bool := py_eq (node_type n) (VStr "trigger").

(** [[n for n in payload.nodes if n.get("type") == "trigger"] or payload.nodes[:1]] *)
Definition start_nodes (nodes : list dictT) : list dictT :=
  match filter (λ n, is_trigger n = true) nodes with
  | [] => take 1 nodes
  | ts => ts
  end.

(** [[e for e in payload.edges if e.get("from") == current_id]] *)
Definition next_edges (edges : list dictT) (current_id : value) : list dictT :=
  filter (λ e, py_eq (get_default "from" e VNone) current_id = true) edges.

(** [next_edges[0]["to"] if next_edges else None] *)
Definition next_id (edges : list dictT) (current_id : value) : run value :=
  match next_edges edges current_id with
  | e :: _ => subscript e "to"
  | [] => Done VNone
  end.

Section Engine.

(** [eval] on a source string, and the clock read by [now_utc]: the
    [i]-th reading of a call, rendered by [isoformat]. *)
Variable eval_str : string → dictT → eval_outcome.
Variable clock : nat → string.

(** [eval(cond, {}, {"ctx": ctx})]: anything but a string is a [TypeError]. *)
Definition py_eval (cond : value) (ctx : dictT) : eval_outcome :=
  match cond with
  | VStr s => eval_str s ctx
  | _ => EvError TypeError ctx
  end.

(** The local function [log]. *)
Definition log (msg : string) (st : estate) : estate :=
  MkState (st_logs st ++ ["[" +:+ clock (length (st_logs st)) +:+ "] " +:+ msg])
          (st_ctx st) (st_steps st).

Definition tick (st : estate) : estate :=
  MkState (st_logs st) (st_ctx st) (S (st_steps st)).

(** The [if]/[elif] chain on [ntype].  The boolean tells whether the
    loop goes on to the edges ([true]) or leaves by [break] ([false]). *)
Definition visit (node : dictT) (st : estate) : run (bool * estate) :=
  let ntype := node_type node in
  let cfg := get_default "config" node (VDict []) in
  if py_eq ntype (VStr "trigger") then
    let* name := method_get cfg "name" (VStr "start") in
    Done (true, log ("Trigger: " +:+ py_str name) st)
  else if py_eq ntype (VStr "condition") then
    let* cond := method_get cfg "expr" (VStr "True") in
    match py_eval cond (st_ctx st) with
    | EvEscape e => Raised e
    | EvHangs => Hangs
    | EvValue v ctx' =>
        let ok := py_truthy v in
        Done (ok, log ("Condition '" +:+ py_str cond +:+ "' -> " +:+ py_str (VBool ok))
                      (MkState (st_logs st) ctx' (st_steps st)))
    | EvError _ ctx' =>
        Done (false, log ("Condition '" +:+ py_str cond +:+ "' -> " +:+ py_str (VBool false))
                         (MkState (st_logs st) ctx' (st_steps st)))
    end
  else if py_eq ntype (VStr "action") then
    let* act := method_get cfg "name" (VStr "noop") in
    if py_eq act (VStr "send_message") then
      let* text := method_get cfg "text" (VStr "") in
      Done (true, log ("Action: send_message -> " +:+ py_str text) st)
    else if py_eq act (VStr "delay") then
      let* ms := method_get cfg "ms" (VInt 0) in
      Done (true, log ("Action: delay " +:+ py_str ms +:+ "ms (simulated)") st)
    else
      Done (true, log ("Action: " +:+ py_str act) st)
  else Done (true, st).

Variable node_map : gmap hkey dictT.
Variable edges : list dictT.

(** The [while] loop of one start node; [fuel] bounds the number of
    times its body is entered. *)
Fixpoint walk (fuel : nat) (current_id : value) (visited : gset hkey)
    (st : estate) : run estate :=
  if negb (py_truthy current_id) then Done st else
  match py_hash current_id with
  | None => Raised TypeError
  | Some k =>
      if decide (k ∈ visited) then Done st else
      match fuel with
      | O => OutOfFuel
      | S fuel' =>
          let visited' := {[k]} ∪ visited in
          let st := tick st in
          match node_map !! k with
          | None => Done st
          | Some node =>
              if negb (py_truthy (VDict node)) then Done st else
              let* r := visit node st in
              if negb r.1 then Done r.2 else
              let* nxt := next_id edges current_id in
              walk fuel' nxt visited' r.2
          end
      end
  end.

(** The [for start in start_nodes] loop. *)
Fixpoint for_starts (fuel : nat) (starts : list dictT) (st : estate) : run estate :=
  match starts with
  | [] => Done st
  | start :: rest =>
      let* st' := walk fuel (node_id start) ∅ st in
      for_starts fuel rest st'
  end.

End Engine.

(** The response [{"ok": True, "logs": logs, "context": ctx}]. *)
Record response : Type := MkResponse {
  ok : bool;
  logs : list string;
  context : dictT
}.

(** The handler.  Each start node's loop receives as much fuel as there
    are nodes, plus one; [execute_flow_fuel] shows it is never used up. *)
Definition execute_flow (eval_str : string → dictT → eval_outcome) (clock : nat → string)
    (nodes edges : list dictT) (payload : dictT) : run response :=
  let ctx := payload in
  let* node_map := build_node_map nodes ∅ in
  let* st := for_starts eval_str clock node_map edges (S (length nodes))
                (start_nodes nodes) (MkState [] ctx 0%nat) in
  Done (MkResponse true (st_logs st) (st_ctx st)).

(** ** A fragment of Python expressions for [eval]

    Sources in the fragment are built from the name [ctx], the constants
    [True], [False], [None], decimal integers and plainly quoted strings,
    with attribute access, subscripts, [.get(...)] on a dict, one
    comparison per operand pair, [not], [and] and [or].  For a source in
    the fragment [eval_source] gives the value or the exception of
    Python's [eval]; for every other source it answers [None], which
    says nothing about what Python does. *)
Module PyExpr.

Inductive token : Type :=
| TName (x : string)
| TInt (n : Z)
| TStr (s : string)
| TOp (o : string).

Definition code (c : Ascii.ascii) : nat := Ascii.nat_of_ascii c.

Definition is_digit (c : Ascii.ascii) : bool :=
  (48 <=? code c)%nat && (code c <=? 57)%nat.
Definition is_ident_start (c : Ascii.ascii) : bool :=
  ((65 <=? code c)%nat && (code c <=? 90)%nat)
  || ((97 <=? code c)%nat && (code c <=? 122)%nat)
  || (code c =? 95)%nat.
Definition is_ident_char (c : Ascii.ascii) : bool := is_ident_start c || is_digit c.
Definition is_blank (c : Ascii.ascii) : bool := (code c =? 32)%nat || (code c =? 9)%nat.
Definition is_quote (c : Ascii.ascii) : bool := Ascii.eqb c squote || Ascii.eqb c dquote.

Fixpoint span (p : Ascii.ascii → bool) (s : string) : string * string :=
  match s with
  | String c r =>
      if p c then let '(a, b) := span p r in (String c a, b) else ("", s)
  | EmptyString => ("", "")
  end.

Fixpoint digits_value (s : string) (acc : Z) : Z :=
  match s with
  | EmptyString => acc
  | String c r => digits_value r (10 * acc + Z.of_nat (code c - 48))
  end.

Definition head_is (p : Ascii.ascii → bool) (s : string) : bool :=
  match s with
  | String c _ => p c
  | EmptyString => false
  end.

(** The body of a string literal up to the closing quote; escapes and
    control characters are left out of the fragment. *)
Fixpoint read_str (q : Ascii.ascii) (s : string) : option (string * string) :=
  match s with
  | EmptyString => None
  | String c r =>
      if Ascii.eqb c q then Some ("", r)
      else if Ascii.eqb c backslash || (code c <? 32)%nat || (code c =? 127)%nat then None
      else '(a, b) ← read_str q r; Some (String c a, b)
  end.

Definition is_single_op (c : Ascii.ascii) : bool := has_char c "<>()[].,".
Definition is_eq_prefix (c : Ascii.ascii) : bool := has_char c "=!<>".

Fixpoint lex (fuel : nat) (s : string) : option (list token) :=
  match fuel with
  | O => None
  | S fuel =>
      match s with
      | EmptyString => Some []
      | String c r =>
          if is_blank c then lex fuel r
          else if is_ident_start c then
            let '(x, rest) := span is_ident_char s in
            if head_is is_quote rest then None
            else ts ← lex fuel rest; Some (TName x :: ts)
          else if is_digit c then
            let '(ds, rest) := span is_digit s in
            if head_is (λ c', is_ident_char c' || Ascii.eqb c' (chr 46)) rest then None
            else if (18 <? String.length ds)%nat then None
            else if head_is (Ascii.eqb (chr 48)) ds && (1 <? String.length ds)%nat then None
            else ts ← lex fuel rest; Some (TInt (digits_value ds 0) :: ts)
          else if is_quote c then
            '(lit, rest) ← read_str c r;
            if String.eqb lit "" && head_is (Ascii.eqb c) rest then None
            else ts ← lex fuel rest; Some (TStr lit :: ts)
          else if is_eq_prefix c && head_is (Ascii.eqb (chr 61)) r then
            match r with
            | String c2 r2 => ts ← lex fuel r2; Some (TOp (String c (String c2 "")) :: ts)
            | EmptyString => None
            end
          else if is_single_op c then
            ts ← lex fuel r; Some (TOp (String c "") :: ts)
          else None
      end
  end.

Inductive cmpop : Type := CEq | CNe | CLt | CLe | CGt | CGe | CIn | CNotIn.

Inductive expr : Type :=
| EName (x : string)
| EConst (v : value)
| EAttr (e : expr) (a : string)
| ESub (e i : expr)
| EGet1 (e k : expr)
| EGet2 (e k d : expr)
| ENot (e : expr)
| EAnd (a b : expr)
| EOr (a b : expr)
| ECmp (op : cmpop) (a b : expr).

Definition keywords : list string :=
  ["False"; "None"; "True"; "and"; "as"; "assert"; "async"; "await"; "break";
   "class"; "continue"; "def"; "del"; "elif"; "else"; "except"; "finally";
   "for"; "from"; "global"; "if"; "import"; "in"; "is"; "lambda"; "nonlocal";
   "not"; "or"; "pass"; "raise"; "return"; "try"; "while"; "with"; "yield"].

Definition is_keyword (x : string) : bool := existsb (String.eqb x) keywords.

Definition is_name (x : string) (t : token) : bool :=
  match t with
  | TName y => String.eqb x y
  | _ => false
  end.

Definition is_op (o : string) (t : token) : bool :=
  match t with
  | TOp p => String.eqb o p
  | _ => false
  end.

(** A comparison operator at the head of the tokens. *)
Definition cmpop_of (ts : list token) : option (cmpop * list token) :=
  match ts with
  | TOp o :: ts' =>
      if String.eqb o "==" then Some (CEq, ts')
      else if String.eqb o "!=" then Some (CNe, ts')
      else if String.eqb o "<" then Some (CLt, ts')
      else if String.eqb o "<=" then Some (CLe, ts')
      else if String.eqb o ">" then Some (CGt, ts')
      else if String.eqb o ">=" then Some (CGe, ts')
      else None
  | TName x :: ts' =>
      if String.eqb x "in" then Some (CIn, ts')
      else if String.eqb x "not" then
        match ts' with
        | t :: ts'' => if is_name "in" t then Some (CNotIn, ts'') else None
        | [] => None
        end
      else None
  | _ => None
  end.

Definition head_is_op (o : string) (ts : list token) : bool :=
  match ts with
  | t :: _ => is_op o t
  | [] => false
  end.

Definition expect (o : string) (ts : list token) : option (list token) :=
  match ts with
  | t :: ts' => if is_op o t then Some ts' else None
  | [] => None
  end.

Fixpoint p_or (fuel : nat) (ts : list token) : option (expr * list token) :=
  match fuel with
  | O => None
  | S fuel => '(a, ts) ← p_and fuel ts; p_or_tail fuel a ts
  end
with p_or_tail (fuel : nat) (a : expr) (ts : list token) : option (expr * list token) :=
  match fuel with
  | O => None
  | S fuel =>
      match ts with
      | t :: ts' =>
          if is_name "or" t then '(b, ts) ← p_and fuel ts'; p_or_tail fuel (EOr a b) ts
          else Some (a, ts)
      | [] => Some (a, ts)
      end
  end
with p_and (fuel : nat) (ts : list token) : option (expr * list token) :=
  match fuel with
  | O => None
  | S fuel => '(a, ts) ← p_not fuel ts; p_and_tail fuel a ts
  end
with p_and_tail (fuel : nat) (a : expr) (ts : list token) : option (expr * list token) :=
  match fuel with
  | O => None
  | S fuel =>
      match ts with
      | t :: ts' =>
          if is_name "and" t then '(b, ts) ← p_not fuel ts'; p_and_tail fuel (EAnd a b) ts
          else Some (a, ts)
      | [] => Some (a, ts)
      end
  end
with p_not (fuel : nat) (ts : list token) : option (expr * list token) :=
  match fuel with
  | O => None
  | S fuel =>
      match ts with
      | t :: ts' =>
          if is_name "not" t then '(e, ts) ← p_not fuel ts'; Some (ENot e, ts)
          else p_cmp fuel ts
      | [] => None
      end
  end
with p_cmp (fuel : nat) (ts : list token) : option (expr * list token) :=
  match fuel with
  | O => None
  | S fuel =>
      '(a, ts) ← p_primary fuel ts;
      match cmpop_of ts with
      | Some (op, ts') => '(b, ts) ← p_primary fuel ts'; Some (ECmp op a b, ts)
      | None => Some (a, ts)
      end
  end
with p_primary (fuel : nat) (ts : list token) : option (expr * list token) :=
  match fuel with
  | O => None
  | S fuel =>
      match ts with
      | TName x :: ts' =>
          if String.eqb x "True" then p_trailers fuel (EConst (VBool true)) ts'
          else if String.eqb x "False" then p_trailers fuel (EConst (VBool false)) ts'
          else if String.eqb x "None" then p_trailers fuel (EConst VNone) ts'
          else if is_keyword x then None
          else p_trailers fuel (EName x) ts'
      | TInt n :: ts' => p_trailers fuel (EConst (VInt n)) ts'
      | TStr s :: ts' => p_trailers fuel (EConst (VStr s)) ts'
      | TOp o :: ts' =>
          if String.eqb o "(" then
            '(e, ts) ← p_or fuel ts'; ts ← expect ")" ts; p_trailers fuel e ts
          else None
      | [] => None
      end
  end
with p_trailers (fuel : nat) (a : expr) (ts : list token) : option (expr * list token) :=
  match fuel with
  | O => None
  | S fuel =>
      match ts with
      | TOp o :: ts' =>
          if String.eqb o "." then
            match ts' with
            | TName x :: ts'' =>
                if is_keyword x then None
                else if head_is_op "(" ts'' then
                  if String.eqb x "get" then
                    '(k, ts) ← p_or fuel (tail ts'');
                    match ts with
                    | t :: ts1 =>
                        if is_op ")" t then p_trailers fuel (EGet1 a k) ts1
                        else if is_op "," t then
                          '(d, ts) ← p_or fuel ts1;
                          ts ← expect ")" ts; p_trailers fuel (EGet2 a k d) ts
                        else None
                    | [] => None
                    end
                  else None
                else p_trailers fuel (EAttr a x) ts''
            | _ => None
            end
          else if String.eqb o "[" then
            '(i, ts) ← p_or fuel ts'; ts ← expect "]" ts; p_trailers fuel (ESub a i) ts
          else if String.eqb o "(" then None
          else Some (a, ts)
      | _ => Some (a, ts)
      end
  end.

Definition parse (ts : list token) : option expr :=
  '(e, rest) ← p_or (8 * length ts + 16) ts;
  match rest with
  | [] => Some e
  | _ => None
  end.

(** Result of evaluating an expression: a value, an exception, or
    [Unk] where the fragment ends (bound methods, builtins, ...). *)
Inductive eres : Type :=
| Val (v : value)
| Err (e : exn)
| Unk.

Definition ebind (m : eres) (f : value → eres) : eres :=
  match m with
  | Val v => f v
  | Err e => Err e
  | Unk => Unk
  end.

(** The attributes of a [dict] that are not of the form [__x__]. *)
Definition dict_attrs : list string :=
  ["clear"; "copy"; "fromkeys"; "get"; "items"; "keys"; "pop"; "popitem";
   "setdefault"; "update"; "values"].

Definition get_attr (v : value) (a : string) : eres :=
  match v with
  | VDict _ =>
      if head_is (Ascii.eqb (chr 95)) a || existsb (String.eqb a) dict_attrs then Unk
      else Err AttributeError
  | _ => Unk
  end.

Definition as_int (v : value) : option Z :=
  match v with
  | VInt n => Some n
  | VBool b => Some (Z.b2z b)
  | _ => None
  end.

(** [v[i]] *)
Definition get_item (v i : value) : eres :=
  match v with
  | VDict d =>
      match py_hash i with
      | None => Err TypeError
      | Some (KStr s) =>
          match dict_get s d with
          | Some x => Val x
          | None => Err KeyError
          end
      | Some _ => Err KeyError
      end
  | VList l =>
      match as_int i with
      | None => Err TypeError
      | Some n =>
          let j := if n <? 0 then n + Z.of_nat (length l) else n in
          if j <? 0 then Err IndexError
          else match l !! Z.to_nat j with
               | Some x => Val x
               | None => Err IndexError
               end
      end
  | VStr _ => Unk
  | VNone | VBool _ | VInt _ => Err TypeError
  end.

(** [d.get(k, default)] where the receiver may be any value. *)
Definition call_get (v k default : value) : eres :=
  match v with
  | VDict d =>
      match py_hash k with
      | None => Err TypeError
      | Some (KStr s) => Val (get_default s d default)
      | Some _ => Val default
      end
  | _ => Err AttributeError
  end.

Fixpoint prefixb (p s : string) : bool :=
  match p, s with
  | EmptyString, _ => true
  | String a p', String b s' => Ascii.eqb a b && prefixb p' s'
  | String _ _, EmptyString => false
  end.

(** [p in s] on strings. *)
Fixpoint contains (p s : string) : bool :=
  prefixb p s ||
  match s with
  | EmptyString => false
  | String _ s' => contains p s'
  end.

(** [a in b] *)
Definition py_in (a b : value) : eres :=
  match b with
  | VStr s =>
      match a with
      | VStr p => Val (VBool (contains p s))
      | _ => Err TypeError
      end
  | VList l => Val (VBool (existsb (λ x, py_eq x a) l))
  | VDict d =>
      match py_hash a with
      | None => Err TypeError
      | Some (KStr s) => Val (VBool (bool_decide (is_Some (dict_get s d))))
      | Some _ => Val (VBool false)
      end
  | VNone | VBool _ | VInt _ => Err TypeError
  end.

Definition order_holds (op : cmpop) (c : comparison) : bool :=
  match op, c with
  | CLt, Lt => true
  | CLe, (Lt | Eq) => true
  | CGt, Gt => true
  | CGe, (Gt | Eq) => true
  | _, _ => false
  end.

(** [a < b], [a <= b], [a > b], [a >= b]: numbers with numbers, strings
    with strings (byte order is code point order in UTF-8); lists with
    lists are left out; all other pairs raise [TypeError]. *)
Definition py_order (op : cmpop) (a b : value) : eres :=
  match as_int a, as_int b with
  | Some x, Some y => Val (VBool (order_holds op (x ?= y)))
  | _, _ =>
      match a, b with
      | VStr s, VStr t => Val (VBool (order_holds op (String.compare s t)))
      | VList _, VList _ => Unk
      | _, _ => Err TypeError
      end
  end.

Definition py_compare (op : cmpop) (a b : value) : eres :=
  match op with
  | CEq => Val (VBool (py_eq a b))
  | CNe => Val (VBool (negb (py_eq a b)))
  | CIn => py_in a b
  | CNotIn => ebind (py_in a b) (λ r, Val (VBool (negb (py_truthy r))))
  | _ => py_order op a b
  end.

(** Evaluation with locals [{"ctx": ctx}] and empty globals. *)
Fixpoint eval_expr (ctx : dictT) (e : expr) : eres :=
  match e with
  | EName x => if String.eqb x "ctx" then Val (VDict ctx) else Unk
  | EConst v => Val v
  | EAttr e a => ebind (eval_expr ctx e) (λ v, get_attr v a)
  | ESub e i =>
      ebind (eval_expr ctx e) (λ v, ebind (eval_expr ctx i) (λ k, get_item v k))
  | EGet1 e k =>
      ebind (eval_expr ctx e) (λ v,
        match v with
        | VDict _ => ebind (eval_expr ctx k) (λ kv, call_get v kv VNone)
        | _ => Err AttributeError
        end)
  | EGet2 e k d =>
      ebind (eval_expr ctx e) (λ v,
        match v with
        | VDict _ =>
            ebind (eval_expr ctx k) (λ kv,
              ebind (eval_expr ctx d) (λ dv, call_get v kv dv))
        | _ => Err AttributeError
        end)
  | ENot e => ebind (eval_expr ctx e) (λ v, Val (VBool (negb (py_truthy v))))
  | EAnd a b => ebind (eval_expr ctx a) (λ v, if py_truthy v then eval_expr ctx b else Val v)
  | EOr a b => ebind (eval_expr ctx a) (λ v, if py_truthy v then Val v else eval_expr ctx b)
  | ECmp op a b =>
      ebind (eval_expr ctx a) (λ x, ebind (eval_expr ctx b) (λ y, py_compare op x y))
  end.

(** [eval(source, {}, {"ctx": ctx})] for sources of at most 256 bytes
    that lie in the fragment. *)
Definition eval_source (source : string) (ctx : dictT) : option eres :=
  if (256 <? String.length source)%nat then None
  else
    ts ← lex (S (String.length source)) source;
    e ← parse ts;
    match eval_expr ctx e with
    | Unk => None
    | r => Some r
    end.

(** One form outside the fragment whose evaluation never returns:
    [any(iter(int, n))] for a decimal [n] other than [0].  [iter(int, n)]
    calls [int()], which is [0], until the result equals [n], and [any]
    waits for a truthy item. *)
Definition never_returns (source : string) : bool :=
  match lex (S (String.length source)) source with
  | Some [TName f; TOp o1; TName g; TOp o2; TName h; TOp o3; TInt n; TOp o4; TOp o5] =>
      String.eqb f "any" && String.eqb o1 "(" && String.eqb g "iter" && String.eqb o2 "("
      && String.eqb h "int" && String.eqb o3 "," && negb (n =? 0)
      && String.eqb o4 ")" && String.eqb o5 ")"
  | _ => false
  end.

End PyExpr.

(** The evaluator handed to the engine.  No expression of the fragment
    changes the context. *)
Definition eval_str (source : string) (ctx : dictT) : eval_outcome :=
  match PyExpr.eval_source source ctx with
  | Some (PyExpr.Val v) => EvValue v ctx
  | Some (PyExpr.Err e) => EvError e ctx
  | _ => if PyExpr.never_returns source then EvHangs else EvEscape NotModelled
  end.

(** Clock readings: the model's calls are stamped with their index. *)
Definition tick_clock (i : nat) : string := "t" +:+ pretty i.

(** ** Vocabulary of the statements *)

(** The loop is about to enter its body at [node]: the identifier is
    truthy, hashes to [k], has not been visited, and is indexed. *)
Definition arrives (nm : gmap hkey dictT) (cid : value) (visited : gset hkey)
    (k : hkey) (node : dictT) : Prop :=
  py_truthy cid = true ∧ py_hash cid = Some k ∧ (k ∉ visited) ∧
  nm !! k = Some node ∧ py_truthy (VDict node) = true.

(** Outcome of a loop that entered its body at most [bound] times. *)
Definition within (bound : nat) (st : estate) (r : run estate) : Prop :=
  match r with
  | Done st' => (st_steps st' ≤ st_steps st + bound)%nat
  | Raised _ => True
  | OutOfFuel => False
  | Hangs => True
  end.

(** Termination measure: indexed identifiers not yet visited. *)
Definition unvisited (nm : gmap hkey dictT) (visited : gset hkey) : nat :=
  size (dom nm ∖ visited).

(** The last node of the list carrying a given key. *)
Definition last_with_key (k : hkey) (nodes : list dictT) : option dictT :=
  last (filter (λ n, py_hash (node_id n) = Some k) nodes).

(** The index of a node list, when it can be built. *)
Definition index_of (nodes : list dictT) : gmap hkey dictT :=
  match build_node_map nodes ∅ with
  | Done m => m
  | _ => ∅
  end.

(** ** Scenarios *)

Definition mk_node (id kind : string) (config : dictT) : dictT :=
  [("id", VStr id); ("type", VStr kind); ("config", VDict config)].

Definition mk_edge (from to : string) : dictT :=
  [("from", VStr from); ("to", VStr to)].

(** Scenario A. *)
Definition scenario_a_nodes (expr : string) : list dictT :=
  [mk_node "t1" "trigger" [("name", VStr "start")];
   mk_node "c1" "condition" [("expr", VStr expr)];
   mk_node "a1" "action" [("name", VStr "send_message"); ("text", VStr "Welcome")]].

Definition scenario_a_edges : list dictT :=
  [mk_edge "t1" "c1"; mk_edge "c1" "a1"].

(** Scenario B: a trigger with an edge back to itself. *)
Definition scenario_b_nodes : list dictT := [[("id", VStr "t1"); ("type", VStr "trigger")]].
Definition scenario_b_edges : list dictT := [mk_edge "t1" "t1"].

(** A log line as [log] renders it. *)
Definition line (clock : nat → string) (i : nat) (msg : string) : string :=
  "[" +:+ clock i +:+ "] " +:+ msg.

(** Some line of the logs mentions [msg]. *)
Definition logs_mention (msg : string) (ls : list string) : bool :=
  existsb (PyExpr.contains msg) ls.

Definition scenario_b_index : gmap hkey dictT :=
  {[KStr "t1" := [("id", VStr "t1"); ("type", VStr "trigger")]]}.

Definition under_age : dictT := [("age", VInt 10)].
Definition of_age : dictT := [("age", VInt 21)].

Definition note_nodes : list dictT :=
  [mk_node "t1" "trigger" []; mk_node "n1" "note" []; mk_node "a1" "action" []].
Definition note_edges : list dictT := [mk_edge "t1" "n1"; mk_edge "n1" "a1"].

Definition fork_nodes : list dictT :=
  [mk_node "t1" "trigger" [];
   mk_node "a1" "action" [("name", VStr "first")];
   mk_node "a2" "action" [("name", VStr "second")]].
Definition fork_edges : list dictT := [mk_edge "t1" "a1"; mk_edge "t1" "a2"].

Definition mismatch_expr : string := "ctx['age'] < 'x'".

Definition twin_nodes : list dictT :=
  [mk_node "n" "trigger" [("name", VStr "first")];
   mk_node "n" "trigger" [("name", VStr "second")]].

(** ** Further vocabulary for the engine *)

(** The context an evaluation leaves behind. *)
Definition ctx_after (o : eval_outcome) (ctx : dictT) : dictT :=
  match o with
  | EvValue _ ctx' => ctx'
  | EvError _ ctx' => ctx'
  | EvEscape _ => ctx
  | EvHangs => ctx
  end.

(** [cfg.get("expr", "True")] of a node whose ["config"] is a dict (or
    absent). *)
Definition node_expr (n : dictT) : value :=
  match get_default "config" n (VDict []) with
  | VDict d => get_default "expr" d (VStr "True")
  | _ => VStr "True"
  end.

(** A node the loop can visit without raising: its id can be hashed and
    its ["config"], when present, is a dict. *)
Definition sound_node (n : dictT) : Prop :=
  is_Some (py_hash (node_id n)) ∧ ∃ d, get_default "config" n (VDict []) = VDict d.

(** An edge the loop can follow without raising: it has a ["to"], which
    can be hashed. *)
Definition sound_edge (e : dictT) : Prop :=
  ∃ t, dict_get "to" e = Some t ∧ is_Some (py_hash t).

(** On the expression of a condition node the evaluator returns a value
    or raises an [Exception]: it raises nothing past [except Exception]
    and it does return. *)
Definition tame_condition (ev : string → dictT → eval_outcome) (n : dictT) : Prop :=
  node_type n = VStr "condition" →
  ∀ ctx, (∀ e, py_eval ev (node_expr n) ctx ≠ EvEscape e)
         ∧ py_eval ev (node_expr n) ctx ≠ EvHangs.

(** On the expression of a condition node the evaluator does return. *)
Definition returns_on (ev : string → dictT → eval_outcome) (n : dictT) : Prop :=
  node_type n = VStr "condition" → ∀ ctx, py_eval ev (node_expr n) ctx ≠ EvHangs.

(** On the expression of a condition node the evaluator leaves the
    context as it found it. *)
Definition keeps_ctx (ev : string → dictT → eval_outcome) (n : dictT) : Prop :=
  node_type n = VStr "condition" →
  ∀ ctx, ctx_after (py_eval ev (node_expr n) ctx) ctx = ctx.

(** A graph with a cycle through a condition whose evaluation never
    returns. *)
Definition endless_nodes : list dictT :=
  [mk_node "t1" "trigger" []; mk_node "c1" "condition" [("expr", VStr "any(iter(int, 1))")]].
Definition endless_edges : list dictT := [mk_edge "t1" "c1"; mk_edge "c1" "t1"].

(** ** The mini-app catalogue ([MINIAPPS], [miniapps], [miniapp_detail]) *)

(** What a route gives back: a body, or an [HTTPException]. *)
Inductive http (A : Type) : Type :=
| Reply (body : A)
| HTTPException (status_code : nat) (detail : string).

Arguments Reply {A} body.
Arguments HTTPException {A} status_code detail.

Definition MINIAPPS : list dictT :=
  [[("id", VStr "vault"); ("name", VStr "Vault"); ("icon", VStr "lock");
    ("pages", VList [VStr "Home"; VStr "Cards"; VStr "Payments"])];
   [("id", VStr "tasks"); ("name", VStr "Tasks"); ("icon", VStr "check");
    ("pages", VList [VStr "Today"; VStr "Upcoming"])]].

Definition miniapps : list dictT := MINIAPPS.

(** The [for m in ...] loop of [miniapp_detail], with the [raise] behind it. *)
Fixpoint miniapp_search (apps : list dictT) (app_id : string) : run (http dictT) :=
  match apps with
  | [] => Done (HTTPException 404 "Mini-app not found")
  | m :: rest =>
      let* id := subscript m "id" in
      if py_eq id (VStr app_id) then Done (Reply m) else miniapp_search rest app_id
  end.

Definition miniapp_detail (app_id : string) : run (http dictT) :=
  miniapp_search MINIAPPS app_id.

(** ** The registry of open sockets ([ConnectionManager])

    A [WebSocket] is known by its identity alone: two sockets are equal
    only when they are the same object.  The coroutines are followed from
    start to end, without another coroutine running at their [await]s. *)
Module ConnectionManager.

Definition WebSocket : Type := nat.

(** [self.active] *)
Abbreviation registry := (gmap string (list WebSocket)).

(** [__init__] *)
Definition init : registry := ∅.

(** [self.active.get(chat_id, [])] *)
Definition subscribers (active : registry) (chat_id : string) : list WebSocket :=
  default [] (active !! chat_id).

(** [connect]; [accepted] tells whether [websocket.accept()] returned
    ([None] stands for its exception, which leaves the registry alone). *)
Definition connect (accepted : bool) (chat_id : string) (websocket : WebSocket)
    (active : registry) : option registry :=
  if accepted then Some (<[chat_id := (subscribers active chat_id ++ [websocket])%list]> active)
  else None.

(** [l.remove(x)]: the first occurrence goes; [None] is [ValueError]. *)
Fixpoint list_remove (x : WebSocket) (l : list WebSocket) : option (list WebSocket) :=
  match l with
  | [] => None
  | y :: l' => if decide (y = x) then Some l' else (y ::.) <$> list_remove x l'
  end.

(** [disconnect]; [None] stands for an exception. *)
Definition disconnect (chat_id : string) (websocket : WebSocket) (active : registry)
  : option registry :=
  match active !! chat_id with
  | Some l =>
      if decide (websocket ∈ l) then
        l' ← list_remove websocket l; Some (<[chat_id := l']> active)
      else Some active
  | None => Some active
  end.

(** The loop of [broadcast] over the copied list; [send_json ws] tells
    whether sending to [ws] returns ([true]) or raises an [Exception].
    Beside the registry the loop yields the sockets that were sent the
    message, in order. *)
Fixpoint broadcast_loop (send_json : WebSocket → bool) (chat_id : string)
    (copy : list WebSocket) (active : registry) (sent : list WebSocket)
  : option (list WebSocket * registry) :=
  match copy with
  | [] => Some (sent, active)
  | ws :: rest =>
      if send_json ws then broadcast_loop send_json chat_id rest active (sent ++ [ws])%list
      else
        active' ← disconnect chat_id ws active;
        broadcast_loop send_json chat_id rest active' sent
  end.

Definition broadcast (send_json : WebSocket → bool) (chat_id : string) (active : registry)
  : option (list WebSocket * registry) :=
  broadcast_loop send_json chat_id (subscribers active chat_id) active [].

End ConnectionManager.

(** * Properties *)

Close Scope Z_scope.

(** ** Basic facts about values *)

Lemma py_eq_str (v : value) (s : string) :
  py_eq v (VStr s) = true ↔ v = VStr s.
Proof.
  destruct v; simpl; try (split; [discriminate | congruence]).
  rewrite String.eqb_eq. split; congruence.
Qed.

Lemma py_eq_str_false (v : value) (s : string) :
  py_eq v (VStr s) = false ↔ v ≠ VStr s.
Proof.
  rewrite <- py_eq_str. destruct (py_eq v (VStr s)); split; congruence.
Qed.

Lemma is_trigger_spec (n : dictT) :
  is_trigger n = true ↔ dict_get "type" n = Some (VStr "trigger").
Proof.
  unfold is_trigger, node_type, get_default. rewrite py_eq_str.
  destruct (dict_get "type" n); split; congruence.
Qed.

(** A falsy identifier that can be hashed is [None], [False], [0] or [""]. *)
Lemma truthy_not_none (v : value) : py_truthy v = true → py_hash v ≠ Some KNone.
Proof. destruct v; simpl; congruence. Qed.

(** ** The node index *)

Lemma build_node_map_size (nodes : list dictT) (m nm : gmap hkey dictT) :
  build_node_map nodes m = Done nm → (size nm ≤ size m + length nodes)%nat.
Proof.
  revert m. induction nodes as [|n ns IH]; intros m H; simpl in *.
  - injection H as <-. lia.
  - destruct (py_hash (node_id n)) as [k|]; [|discriminate].
    apply IH in H.
    assert (size (<[k:=n]> m) ≤ S (size m))%nat; [|lia].
    destruct (m !! k) eqn:Hk.
    + rewrite map_size_insert_Some; [lia | eauto].
    + rewrite map_size_insert_None; [lia | done].
Qed.

(** Every entry of the index is filed under the hash of its own id. *)
Lemma build_node_map_key_gen (nodes : list dictT) (m nm : gmap hkey dictT) :
  (∀ k n, m !! k = Some n → py_hash (node_id n) = Some k) →
  build_node_map nodes m = Done nm →
  ∀ k n, nm !! k = Some n → py_hash (node_id n) = Some k.
Proof.
  revert m. induction nodes as [|n0 ns IH]; intros m Hm H k n Hk; simpl in *.
  - injection H as <-. eauto.
  - destruct (py_hash (node_id n0)) as [k0|] eqn:Hk0; [|discriminate].
    eapply (IH (<[k0:=n0]> m)); [|done..].
    intros k' n'. rewrite lookup_insert. case_decide; [naive_solver | eauto].
Qed.

Lemma build_node_map_key (nodes : list dictT) (nm : gmap hkey dictT) :
  build_node_map nodes ∅ = Done nm →
  ∀ k n, nm !! k = Some n → py_hash (node_id n) = Some k.
Proof.
  intros H. eapply build_node_map_key_gen; [|done].
  intros k n. by rewrite lookup_empty.
Qed.

(** A node found under a truthy identifier is not the empty dict, so the
    guard [if not node: break] lets it through. *)
Lemma indexed_node_truthy (nodes : list dictT) (nm : gmap hkey dictT)
    (cid : value) (k : hkey) (node : dictT) :
  build_node_map nodes ∅ = Done nm →
  py_truthy cid = true → py_hash cid = Some k → nm !! k = Some node →
  py_truthy (VDict node) = true.
Proof.
  intros Hb Ht Hh Hn. destruct node as [|kv node]; [|done].
  apply (build_node_map_key _ _ Hb) in Hn. cbn in Hn.
  apply truthy_not_none in Ht. congruence.
Qed.

Lemma build_node_map_lookup (nodes : list dictT) (m nm : gmap hkey dictT) (k : hkey) :
  build_node_map nodes m = Done nm →
  nm !! k = match last_with_key k nodes with
            | Some n => Some n
            | None => m !! k
            end.
Proof.
  unfold last_with_key. revert m. induction nodes as [|n ns IH]; intros m H; simpl in *.
  - by injection H as <-.
  - destruct (py_hash (node_id n)) as [k0|] eqn:Hk0; [|discriminate].
    rewrite (IH _ H). rewrite filter_cons. case_decide as Hd.
    + assert (k0 = k) as -> by congruence.
      rewrite last_cons. destruct (last _); [done|]. by rewrite lookup_insert_eq.
    + destruct (last _); [done|]. rewrite lookup_insert_ne; [done | congruence].
Qed.

Lemma build_node_map_total (nodes : list dictT) (m : gmap hkey dictT) :
  Forall (λ n, is_Some (py_hash (node_id n))) nodes →
  ∃ nm, build_node_map nodes m = Done nm.
Proof.
  revert m. induction nodes as [|n ns IH]; intros m H; simpl.
  - eauto.
  - apply Forall_cons in H as [[k ->] H]. eauto.
Qed.

(** ** The traversal loop *)

Section WalkFacts.

Variable ev : string → dictT → eval_outcome.
Variable clock : nat → string.
Variable nm : gmap hkey dictT.
Variable edges : list dictT.

#[local] Abbreviation walk_ := (walk ev clock nm edges).
#[local] Abbreviation visit_ := (visit ev clock).
#[local] Abbreviation arrives_ := (arrives nm).
#[local] Abbreviation unvisited_ := (unvisited nm).

Lemma log_steps (msg : string) (st : estate) : st_steps (log clock msg st) = st_steps st.
Proof. done. Qed.

(** Visiting a node never touches the step counter. *)
Lemma visit_steps (node : dictT) (st : estate) (b : bool) (st' : estate) :
  visit_ node st = Done (b, st') → st_steps st' = st_steps st.
Proof.
  unfold visit, bind, method_get, py_eval.
  repeat (case_match; simpl in *; try discriminate);
    intros ?; simplify_eq; reflexivity.
Qed.

(** Only the loop consumes fuel. *)
Lemma visit_fuel (node : dictT) (st : estate) : visit_ node st ≠ OutOfFuel.
Proof.
  unfold visit, bind, method_get, py_eval.
  repeat (case_match; simpl in *; try discriminate).
Qed.

Lemma next_id_fuel (cid : value) : next_id edges cid ≠ OutOfFuel.
Proof.
  unfold next_id, subscript. repeat (case_match; try discriminate).
Qed.

(** One turn of the loop, when the body is entered. *)
Lemma walk_enter (fuel : nat) (cid : value) (visited : gset hkey) (st : estate)
    (k : hkey) (node : dictT) :
  arrives_ cid visited k node →
  walk_ (S fuel) cid visited st =
    let* r := visit_ node (tick st) in
    if negb r.1 then Done r.2 else
    let* nxt := next_id edges cid in
    walk_ fuel nxt ({[k]} ∪ visited) r.2.
Proof.
  intros (Ht & Hh & Hv & Hn & Hne). simpl.
  rewrite Ht, Hh. simpl. rewrite decide_False by done. rewrite Hn.
  simpl in Hne. rewrite Hne. reflexivity.
Qed.

(** A run that does not exhaust its fuel is unchanged by more fuel. *)
Lemma walk_more_fuel (fuel fuel' : nat) (cid : value) (visited : gset hkey) (st : estate) :
  (fuel ≤ fuel')%nat →
  walk_ fuel cid visited st ≠ OutOfFuel →
  walk_ fuel' cid visited st = walk_ fuel cid visited st.
Proof.
  revert fuel' cid visited st.
  induction fuel as [|fuel IH]; intros fuel' cid visited st Hle H.
  - destruct fuel'; [done|]. simpl in *.
    destruct (py_truthy cid); simpl in *; [|done].
    destruct (py_hash cid); [|done].
    case_decide; [done | congruence].
  - destruct fuel' as [|fuel']; [lia|]. simpl in *.
    destruct (py_truthy cid); simpl in *; [|done].
    destruct (py_hash cid); [|done].
    case_decide; [done|].
    destruct (nm !! h); [|done].
    destruct (negb _); [done|].
    destruct (visit _ _ _ _) as [[b st']| | |]; simpl in *; try done.
    destruct (negb b); [done|].
    destruct (next_id edges cid); simpl in *; try done.
    apply IH; [lia | done].
Qed.

Lemma unvisited_enter (visited : gset hkey) (k : hkey) :
  k ∉ visited → is_Some (nm !! k) →
  unvisited_ visited = S (unvisited_ ({[k]} ∪ visited)).
Proof.
  intros Hv Hk. unfold unvisited.
  assert (dom nm ∖ visited = {[k]} ∪ dom nm ∖ ({[k]} ∪ visited)) as ->.
  { apply elem_of_dom in Hk. apply set_eq. intros x.
    rewrite elem_of_union, !elem_of_difference, elem_of_union, elem_of_singleton.
    destruct (decide (x = k)) as [->|]; tauto. }
  rewrite size_union, size_singleton; [done|].
  intros x. rewrite elem_of_singleton, elem_of_difference, elem_of_union, elem_of_singleton.
  tauto.
Qed.

Lemma walk_within (fuel : nat) (cid : value) (visited : gset hkey) (st : estate) :
  (unvisited_ visited < fuel)%nat →
  within (S (unvisited_ visited)) st (walk_ fuel cid visited st).
Proof.
  revert cid visited st.
  induction fuel as [|fuel IH]; intros cid visited st Hf; [lia|].
  simpl.
  destruct (py_truthy cid); simpl; [|lia].
  destruct (py_hash cid) as [k|]; [|done].
  case_decide as Hv; simpl; [lia|].
  destruct (nm !! k) as [node|] eqn:Hn; simpl; [|lia].
  destruct node as [|kv node]; simpl; [lia|].
  destruct (visit _ _ _ _) as [[b st']| | |] eqn:Hvis; simpl; try done.
  { apply visit_steps in Hvis. simpl in Hvis.
    destruct b; simpl; [|lia].
    destruct (next_id edges cid) as [nxt| | |] eqn:Hnext; simpl; try done;
      [|by apply next_id_fuel in Hnext].
    pose proof (unvisited_enter visited k Hv (mk_is_Some _ _ Hn)) as Hm.
    specialize (IH nxt ({[k]} ∪ visited) st').
    destruct (walk _ _ _ _ _ _ _ _); simpl in *; try done.
    - assert (unvisited_ ({[k]} ∪ visited) < fuel)%nat as Hlt by lia.
      specialize (IH Hlt). lia.
    - apply IH. lia. }
  by apply visit_fuel in Hvis.
Qed.

End WalkFacts.

Lemma unvisited_empty (nm : gmap hkey dictT) : unvisited nm ∅ = size nm.
Proof.
  unfold unvisited. rewrite difference_empty_L. apply size_dom.
Qed.

Lemma visit_trigger (ev : string → dictT → eval_outcome) (clock : nat → string)
    (node cfg : dictT) (st : estate) :
  node_type node = VStr "trigger" →
  get_default "config" node (VDict []) = VDict cfg →
  visit ev clock node st =
    Done (true, log clock ("Trigger: " +:+ py_str (get_default "name" cfg (VStr "start"))) st).
Proof.
  intros Ht Hc. unfold visit. rewrite Ht, Hc. reflexivity.
Qed.

(** A condition whose evaluation gives a falsy object or raises an
    [Exception] logs its line with [False] and asks for [break]. *)
Lemma visit_condition (ev : string → dictT → eval_outcome) (clock : nat → string)
    (node cfg : dictT) (st : estate) :
  node_type node = VStr "condition" →
  get_default "config" node (VDict []) = VDict cfg →
  let cond := get_default "expr" cfg (VStr "True") in
  visit ev clock node st =
    match py_eval ev cond (st_ctx st) with
    | EvEscape e => Raised e
    | EvHangs => Hangs
    | EvValue v ctx' =>
        Done (py_truthy v,
              log clock ("Condition '" +:+ py_str cond +:+ "' -> " +:+ py_str (VBool (py_truthy v)))
                  (MkState (st_logs st) ctx' (st_steps st)))
    | EvError _ ctx' =>
        Done (false,
              log clock ("Condition '" +:+ py_str cond +:+ "' -> False")
                  (MkState (st_logs st) ctx' (st_steps st)))
    end.
Proof.
  intros Ht Hc. unfold visit. rewrite Ht, Hc. reflexivity.
Qed.

Lemma walk_break (ev : string → dictT → eval_outcome) (clock : nat → string)
    (nm : gmap hkey dictT) (edges : list dictT) (fuel : nat) (cid : value)
    (visited : gset hkey) (k : hkey) (node : dictT) (st st' : estate) :
  arrives nm cid visited k node →
  visit ev clock node (tick st) = Done (false, st') →
  walk ev clock nm edges (S fuel) cid visited st = Done st'.
Proof.
  intros Ha Hv. rewrite (walk_enter _ _ _ _ _ _ _ _ _ _ Ha), Hv. reflexivity.
Qed.

Lemma walk_continue (ev : string → dictT → eval_outcome) (clock : nat → string)
    (nm : gmap hkey dictT) (edges : list dictT) (fuel : nat) (cid : value)
    (visited : gset hkey) (k : hkey) (node : dictT) (st st' : estate) :
  arrives nm cid visited k node →
  visit ev clock node (tick st) = Done (true, st') →
  walk ev clock nm edges (S fuel) cid visited st =
    let* nxt := next_id edges cid in
    walk ev clock nm edges fuel nxt ({[k]} ∪ visited) st'.
Proof.
  intros Ha Hv. rewrite (walk_enter _ _ _ _ _ _ _ _ _ _ Ha), Hv. reflexivity.
Qed.

(** No call exhausts the fuel it hands to its loops. *)
Lemma for_starts_fuel (ev : string → dictT → eval_outcome) (clock : nat → string)
    (nm : gmap hkey dictT) (edges : list dictT) (fuel : nat)
    (starts : list dictT) (st : estate) :
  (size nm < fuel)%nat →
  for_starts ev clock nm edges fuel starts st ≠ OutOfFuel.
Proof.
  intros Hf. revert st. induction starts as [|s rest IH]; intros st; simpl; [done|].
  pose proof (walk_within ev clock nm edges fuel (node_id s) ∅ st) as Hw.
  rewrite unvisited_empty in Hw. specialize (Hw Hf).
  destruct (walk _ _ _ _ _ _ _ _); simpl in *; [apply IH | done..].
Qed.

Lemma execute_flow_fuel (ev : string → dictT → eval_outcome) (clock : nat → string)
    (nodes edges : list dictT) (payload : dictT) :
  execute_flow ev clock nodes edges payload ≠ OutOfFuel.
Proof.
  unfold execute_flow.
  destruct (build_node_map nodes ∅) as [nm| | |] eqn:Hb; simpl; [|done| |done].
  - pose proof (build_node_map_size _ _ _ Hb) as Hs. rewrite map_size_empty in Hs.
    pose proof (for_starts_fuel ev clock nm edges (S (length nodes)) (start_nodes nodes)
                  (MkState [] payload 0)) as Hf.
    destruct (for_starts _ _ _ _ _ _ _); simpl; [done | done | | done].
    exfalso. apply Hf; [lia | done].
  - exfalso. clear -Hb. revert Hb. generalize (∅ : gmap hkey dictT).
    induction nodes as [|n ns IH]; intros m; simpl; [done|].
    destruct (py_hash (node_id n)); [apply IH | done].
Qed.

(** When the index can be built, the call is the loop over the start
    nodes followed by the response. *)
Lemma execute_flow_indexed (ev : string → dictT → eval_outcome) (clock : nat → string)
    (nodes edges : list dictT) (payload : dictT) (nm : gmap hkey dictT) :
  build_node_map nodes ∅ = Done nm →
  execute_flow ev clock nodes edges payload =
    let* st := for_starts ev clock nm edges (S (length nodes)) (start_nodes nodes)
                 (MkState [] payload 0) in
    Done (MkResponse true (st_logs st) (st_ctx st)).
Proof.
  intros Hb. unfold execute_flow. rewrite Hb. reflexivity.
Qed.

(** ** Claims *)

(** C7.  For every payload (and whatever the edges, the evaluator and the
    clock are), executing a graph with zero nodes returns empty logs and a
    context equal to the payload. *)
Theorem empty_graph_returns_payload (ev : string → dictT → eval_outcome)
    (clock : nat → string) (edges : list dictT) (payload : dictT) :
  execute_flow ev clock [] edges payload = Done (MkResponse true [] payload).
Proof. reflexivity. Qed.

Lemma filter_trigger_existsb (nodes : list dictT) :
  existsb is_trigger nodes = false → filter (λ n, is_trigger n = true) nodes = [].
Proof.
  induction nodes as [|n ns IH]; simpl; [done|].
  intros [Hn Hns]%orb_false_iff. rewrite filter_cons, decide_False by congruence. auto.
Qed.

Lemma filter_trigger_nonempty (nodes : list dictT) :
  existsb is_trigger nodes = true → filter (λ n, is_trigger n = true) nodes ≠ [].
Proof.
  induction nodes as [|n ns IH]; simpl; [done|].
  rewrite filter_cons. case_decide as Hd; [done|].
  apply not_true_is_false in Hd. rewrite Hd. simpl. auto.
Qed.

(** C9.  The start nodes are the nodes whose ["type"] is ["trigger"], in
    input order; when there is none, the first node of the list alone;
    and none at all for the empty list. *)
Theorem start_nodes_selection (nodes : list dictT) :
  start_nodes nodes =
    (if existsb is_trigger nodes then filter (λ n, is_trigger n = true) nodes
     else match nodes with
          | [] => []
          | n :: _ => [n]
          end)
  ∧ (∀ n, is_trigger n = true ↔ dict_get "type" n = Some (VStr "trigger"))
  ∧ start_nodes [] = [].
Proof.
  split; [|split; [apply is_trigger_spec | reflexivity]].
  unfold start_nodes. destruct (existsb is_trigger nodes) eqn:He.
  - apply filter_trigger_nonempty in He. by destruct (filter _ nodes).
  - rewrite (filter_trigger_existsb _ He). by destruct nodes.
Qed.

(** Visiting a node returns as soon as its [eval] does. *)
Lemma visit_no_hang (ev : string → dictT → eval_outcome) (clock : nat → string)
    (node : dictT) (st : estate) :
  returns_on ev node → visit ev clock node st ≠ Hangs.
Proof.
  intros Hr. unfold visit, bind, method_get.
  destruct (py_eq (node_type node) (VStr "trigger")); [by repeat case_match|].
  destruct (py_eq (node_type node) (VStr "condition")) eqn:Hc; [|by repeat case_match].
  apply py_eq_str in Hc. specialize (Hr Hc (st_ctx st)). unfold node_expr in Hr.
  destruct (get_default "config" node (VDict [])); try done.
  by destruct (py_eval ev _ _).
Qed.

Lemma walk_no_hang (ev : string → dictT → eval_outcome) (clock : nat → string)
    (nm : gmap hkey dictT) (edges : list dictT) :
  (∀ k node, nm !! k = Some node → returns_on ev node) →
  ∀ fuel cid visited st, walk ev clock nm edges fuel cid visited st ≠ Hangs.
Proof.
  intros Hnm. induction fuel as [|fuel IH]; intros cid visited st; simpl.
  - destruct (py_truthy cid); simpl; [|done]. destruct (py_hash cid); [|done].
    by case_decide.
  - destruct (py_truthy cid); simpl; [|done]. destruct (py_hash cid) as [k|]; [|done].
    case_decide; [done|].
    destruct (nm !! k) as [node|] eqn:Hn; [|done].
    destruct (negb _); [done|].
    pose proof (visit_no_hang ev clock node (tick st) (Hnm _ _ Hn)) as Hv.
    destruct (visit ev clock node (tick st)) as [[b st1]| | |]; simpl; try done.
    destruct b; simpl; [|done].
    destruct (next_id edges cid) eqn:Hnext; simpl; try done.
    revert Hnext. unfold next_id, subscript. by repeat case_match.
Qed.

Lemma for_starts_no_hang (ev : string → dictT → eval_outcome) (clock : nat → string)
    (nm : gmap hkey dictT) (edges : list dictT) (fuel : nat) :
  (∀ k node, nm !! k = Some node → returns_on ev node) →
  ∀ starts st, for_starts ev clock nm edges fuel starts st ≠ Hangs.
Proof.
  intros Hnm. induction starts as [|s rest IH]; intros st; simpl; [done|].
  pose proof (walk_no_hang ev clock nm edges Hnm fuel (node_id s) ∅ st) as Hw.
  destruct (walk ev clock nm edges fuel (node_id s) ∅ st); simpl; [apply IH | done..].
Qed.

(** Every entry of the index is a node of the list. *)
Lemma build_node_map_elem (nodes : list dictT) (nm : gmap hkey dictT) (k : hkey) (n : dictT) :
  build_node_map nodes ∅ = Done nm → nm !! k = Some n → n ∈ nodes.
Proof.
  intros Hb. rewrite (build_node_map_lookup _ _ _ k Hb), lookup_empty.
  unfold last_with_key. destruct (last _) as [n'|] eqn:Hl; [|done].
  intros [= ->]. apply last_Some_elem_of in Hl.
  by apply list_elem_of_filter in Hl as [_ ?].
Qed.

(** C5, as stated, fails: on a graph with a cycle through a condition
    whose expression is [any(iter(int, 1))] the evaluation never returns,
    and neither does the call. *)
Lemma endless_condition_hangs :
  eval_str "any(iter(int, 1))" [] = EvHangs
  ∧ next_id endless_edges (VStr "t1") = Done (VStr "c1")
  ∧ next_id endless_edges (VStr "c1") = Done (VStr "t1")
  ∧ execute_flow eval_str tick_clock endless_nodes endless_edges [] = Hangs.
Proof. repeat split; vm_compute; reflexivity. Qed.

(** C5, as the code has it.  With [N] nodes, the loop of any start
    identifier enters its body at most [N+1] times: fuel [N+1] is never
    exhausted, the step counter grows by at most [N+1], more fuel changes
    nothing, and the whole call never runs out of fuel.  When [eval]
    returns on the expression of every condition node, the loop and the
    call therefore end, by returning or by raising.  On Scenario B the
    trigger is logged once, in one turn, and the call returns. *)
Theorem traversal_terminates_within_bound (ev : string → dictT → eval_outcome)
    (clock : nat → string) (nodes edges : list dictT) (nm : gmap hkey dictT)
    (start : value) (st : estate) (payload : dictT) :
  build_node_map nodes ∅ = Done nm →
  let N := length nodes in
  walk ev clock nm edges (S N) start ∅ st ≠ OutOfFuel
  ∧ (∀ st', walk ev clock nm edges (S N) start ∅ st = Done st' →
            (st_steps st' ≤ st_steps st + S N)%nat)
  ∧ (∀ fuel, (S N ≤ fuel)%nat →
             walk ev clock nm edges fuel start ∅ st = walk ev clock nm edges (S N) start ∅ st)
  ∧ execute_flow ev clock nodes edges payload ≠ OutOfFuel
  ∧ (Forall (returns_on ev) nodes →
     ((∃ st', walk ev clock nm edges (S N) start ∅ st = Done st'
              ∧ (st_steps st' ≤ st_steps st + S N)%nat)
      ∨ ∃ e, walk ev clock nm edges (S N) start ∅ st = Raised e)
     ∧ ((∃ r, execute_flow ev clock nodes edges payload = Done r)
        ∨ ∃ e, execute_flow ev clock nodes edges payload = Raised e))
  ∧ execute_flow ev clock scenario_b_nodes scenario_b_edges payload =
      Done (MkResponse true [line clock 0 "Trigger: start"] payload)
  ∧ walk ev clock {[KStr "t1" := [("id", VStr "t1"); ("type", VStr "trigger")]]}
         scenario_b_edges 2 (VStr "t1") ∅ (MkState [] payload 0) =
      Done (MkState [line clock 0 "Trigger: start"] payload 1).
Proof.
  intros Hb N.
  pose proof (build_node_map_size _ _ _ Hb) as Hs. rewrite map_size_empty in Hs.
  pose proof (walk_within ev clock nm edges (S N) start ∅ st) as Hw.
  rewrite unvisited_empty in Hw.
  assert (size nm < S N)%nat as Hlt by (subst N; lia). specialize (Hw Hlt).
  assert (walk ev clock nm edges (S N) start ∅ st ≠ OutOfFuel) as Hne.
  { intros E. by rewrite E in Hw. }
  split; [done|]. split.
  { intros st' E. rewrite E in Hw. simpl in Hw. lia. }
  split; [intros fuel Hf; by apply walk_more_fuel|].
  split; [apply execute_flow_fuel|].
  split; [|split; vm_compute; reflexivity].
  intros Hr.
  assert (∀ k node, nm !! k = Some node → returns_on ev node) as Hnm.
  { intros k node Hk. apply (build_node_map_elem _ _ _ _ Hb) in Hk.
    rewrite Forall_forall in Hr. auto. }
  split.
  - pose proof (walk_no_hang ev clock nm edges Hnm (S N) start ∅ st) as Hh.
    destruct (walk ev clock nm edges (S N) start ∅ st) as [st'|e| |]; try done.
    + left. exists st'. split; [done|]. simpl in Hw. lia.
    + right. by exists e.
  - pose proof (execute_flow_fuel ev clock nodes edges payload) as Hf.
    rewrite (execute_flow_indexed _ _ _ _ _ _ Hb) in *.
    pose proof (for_starts_no_hang ev clock nm edges (S (length nodes)) Hnm
                  (start_nodes nodes) (MkState [] payload 0)) as Hh.
    destruct (for_starts ev clock nm edges (S (length nodes)) (start_nodes nodes)
                (MkState [] payload 0)) as [s'|e| |]; simpl in *; try done.
    + left. eauto.
    + right. eauto.
Qed.

(** C3.  An edge without the key ["to"] makes [next_edges[0]["to"]]
    raise [KeyError] out of the call, and a node whose ["config"] is not
    a dict makes [cfg.get] raise [AttributeError]: neither is absorbed
    into the trace. *)
Theorem malformed_edge_or_config_raises (ev : string → dictT → eval_outcome)
    (clock : nat → string) (payload : dictT) :
  execute_flow ev clock [[("id", VStr "t1"); ("type", VStr "trigger")]]
               [[("from", VStr "t1")]] payload = Raised KeyError
  ∧ execute_flow ev clock
      [[("id", VStr "t1"); ("type", VStr "trigger"); ("config", VStr "oops")]]
      [] payload = Raised AttributeError.
Proof. split; vm_compute; reflexivity. Qed.

Lemma eval_str_returns (source : string) (ctx : dictT) :
  PyExpr.never_returns source = false → eval_str source ctx ≠ EvHangs.
Proof. intros H. unfold eval_str. rewrite H. by repeat case_match. Qed.

Lemma traversal_terminates_within_bound_witness :
  build_node_map (scenario_a_nodes "ctx['age'] >= 18") ∅
    = Done (index_of (scenario_a_nodes "ctx['age'] >= 18"))
  ∧ Forall (returns_on eval_str) (scenario_a_nodes "ctx['age'] >= 18")
  ∧ ((∃ r, execute_flow eval_str tick_clock (scenario_a_nodes "ctx['age'] >= 18")
             (scenario_a_edges ++ [mk_edge "a1" "t1"]) of_age = Done r)
     ∨ ∃ e, execute_flow eval_str tick_clock (scenario_a_nodes "ctx['age'] >= 18")
              (scenario_a_edges ++ [mk_edge "a1" "t1"]) of_age = Raised e).
Proof.
  assert (Forall (returns_on eval_str) (scenario_a_nodes "ctx['age'] >= 18")) as Hr.
  { repeat constructor; intros Hty ctx; try discriminate Hty.
    apply eval_str_returns. reflexivity. }
  split; [reflexivity|]. split; [exact Hr|].
  apply (traversal_terminates_within_bound eval_str tick_clock
           (scenario_a_nodes "ctx['age'] >= 18") (scenario_a_edges ++ [mk_edge "a1" "t1"])
           (index_of (scenario_a_nodes "ctx['age'] >= 18")) (VStr "t1")
           (MkState [] of_age 0) of_age); [reflexivity | exact Hr].
Defined.

(** C6.  When the loop enters a condition node whose expression evaluates
    to a falsy object, that turn appends the single line
    [Condition '<expr>' -> False] and the loop ends: no further node is
    visited (the step counter grows by one) and nothing else is logged.
    A traversal from [start] that has come to this point hands the state
    to the next start node. *)
Theorem false_condition_stops_path (ev : string → dictT → eval_outcome)
    (clock : nat → string) (nm : gmap hkey dictT) (edges : list dictT)
    (fuel : nat) (cid : value) (visited : gset hkey) (k : hkey)
    (node cfg : dictT) (v : value) (ctx' : dictT) (st : estate) :
  arrives nm cid visited k node →
  node_type node = VStr "condition" →
  get_default "config" node (VDict []) = VDict cfg →
  py_eval ev (get_default "expr" cfg (VStr "True")) (st_ctx st) = EvValue v ctx' →
  py_truthy v = false →
  let msg := "Condition '" +:+ py_str (get_default "expr" cfg (VStr "True")) +:+ "' -> False" in
  let st' := MkState (st_logs st ++ [line clock (length (st_logs st)) msg]) ctx'
                     (S (st_steps st)) in
  walk ev clock nm edges (S fuel) cid visited st = Done st'
  ∧ (∀ fuel0 start rest st0,
       walk ev clock nm edges fuel0 (node_id start) ∅ st0
         = walk ev clock nm edges (S fuel) cid visited st →
       for_starts ev clock nm edges fuel0 (start :: rest) st0
         = for_starts ev clock nm edges fuel0 rest st').
Proof.
  intros Ha Ht Hc He Hv msg st'.
  assert (walk ev clock nm edges (S fuel) cid visited st = Done st') as Hw.
  { eapply walk_break; [done|].
    rewrite (visit_condition _ _ _ _ _ Ht Hc). simpl. rewrite He, Hv. reflexivity. }
  split; [done|].
  intros fuel0 start rest st0 E. simpl. rewrite E, Hw. reflexivity.
Qed.

Lemma next_edges_first (pre post : list dictT) (e : dictT) (cid : value) :
  Forall (λ e', py_eq (get_default "from" e' VNone) cid = false) pre →
  py_eq (get_default "from" e VNone) cid = true →
  next_edges (pre ++ e :: post) cid = e :: next_edges post cid.
Proof.
  intros Hpre He. unfold next_edges. rewrite filter_app, filter_cons, decide_True by done.
  induction Hpre as [|e' pre Hn _ IH]; [done|].
  rewrite filter_cons, decide_False by congruence. done.
Qed.

Lemma walk_falsy (ev : string → dictT → eval_outcome) (clock : nat → string)
    (nm : gmap hkey dictT) (edges : list dictT) (fuel : nat) (cid : value)
    (visited : gset hkey) (st : estate) :
  py_truthy cid = false → walk ev clock nm edges fuel cid visited st = Done st.
Proof. intros H. destruct fuel; simpl; by rewrite H. Qed.

Lemma next_id_first (pre post : list dictT) (e : dictT) (cid t : value) :
  Forall (λ e', py_eq (get_default "from" e' VNone) cid = false) pre →
  py_eq (get_default "from" e VNone) cid = true →
  dict_get "to" e = Some t →
  next_id (pre ++ e :: post) cid = Done t.
Proof.
  intros Hpre He Ht. unfold next_id. rewrite (next_edges_first _ _ _ _ Hpre He).
  unfold subscript. by rewrite Ht.
Qed.

Lemma next_id_none (edges : list dictT) (cid : value) :
  Forall (λ e, py_eq (get_default "from" e VNone) cid = false) edges →
  next_id edges cid = Done VNone.
Proof.
  intros H. unfold next_id, next_edges.
  assert (filter (λ e, py_eq (get_default "from" e VNone) cid = true) edges = []) as ->; [|done].
  induction H as [|e es He _ IH]; [done|].
  rewrite filter_cons, decide_False by congruence. done.
Qed.

(** C10.  A node whose ["type"] is none of ["trigger"], ["condition"],
    ["action"] logs nothing and leaves the context alone, whatever its
    ["config"] is, and the loop goes on as after a node that does
    nothing: it follows the earliest edge of the input that starts at the
    node, to that edge's ["to"], and it ends, without a line, when no
    edge starts there. *)
Theorem unknown_kind_is_noop (ev : string → dictT → eval_outcome)
    (clock : nat → string) (nm : gmap hkey dictT) (edges : list dictT)
    (fuel : nat) (cid : value) (visited : gset hkey) (k : hkey)
    (node : dictT) (st : estate) :
  arrives nm cid visited k node →
  node_type node ≠ VStr "trigger" →
  node_type node ≠ VStr "condition" →
  node_type node ≠ VStr "action" →
  let st' := MkState (st_logs st) (st_ctx st) (S (st_steps st)) in
  visit ev clock node st = Done (true, st)
  ∧ walk ev clock nm edges (S fuel) cid visited st =
      (let* nxt := next_id edges cid in
       walk ev clock nm edges fuel nxt ({[k]} ∪ visited) st')
  ∧ (∀ pre e post t,
       edges = (pre ++ e :: post)%list →
       Forall (λ e', py_eq (get_default "from" e' VNone) cid = false) pre →
       py_eq (get_default "from" e VNone) cid = true →
       dict_get "to" e = Some t →
       walk ev clock nm edges (S fuel) cid visited st =
         walk ev clock nm edges fuel t ({[k]} ∪ visited) st')
  ∧ (Forall (λ e, py_eq (get_default "from" e VNone) cid = false) edges →
     walk ev clock nm edges (S fuel) cid visited st = Done st').
Proof.
  intros Ha H1%py_eq_str_false H2%py_eq_str_false H3%py_eq_str_false st'.
  assert (∀ s, visit ev clock node s = Done (true, s)) as Hv.
  { intros s. unfold visit. rewrite H1, H2, H3. reflexivity. }
  assert (walk ev clock nm edges (S fuel) cid visited st =
            (let* nxt := next_id edges cid in
             walk ev clock nm edges fuel nxt ({[k]} ∪ visited) st')) as Hw
    by (by rewrite (walk_continue _ _ _ _ _ _ _ _ _ _ _ Ha (Hv _))).
  split; [apply Hv|]. split; [exact Hw|]. split.
  - intros pre e post t -> Hpre He Ht.
    rewrite Hw, (next_id_first _ _ _ _ _ Hpre He Ht). reflexivity.
  - intros Hnone. rewrite Hw, (next_id_none _ _ Hnone). simpl.
    by apply walk_falsy.
Qed.

(** C8.  Of the edges leaving the current node only the earliest in the
    input is followed: when no edge of [pre] starts at the node and [e]
    does, the next identifier is [e["to"]] whatever comes after [e], and
    the loop goes on from there. *)
Theorem first_matching_edge_followed (ev : string → dictT → eval_outcome)
    (clock : nat → string) (nm : gmap hkey dictT) (pre post : list dictT)
    (e : dictT) (fuel : nat) (cid : value) (visited : gset hkey) (k : hkey)
    (node : dictT) (st st' : estate) (t : value) :
  arrives nm cid visited k node →
  visit ev clock node (tick st) = Done (true, st') →
  Forall (λ e', py_eq (get_default "from" e' VNone) cid = false) pre →
  py_eq (get_default "from" e VNone) cid = true →
  dict_get "to" e = Some t →
  next_id (pre ++ e :: post) cid = Done t
  ∧ walk ev clock nm (pre ++ e :: post) (S fuel) cid visited st =
      walk ev clock nm (pre ++ e :: post) fuel t ({[k]} ∪ visited) st'.
Proof.
  intros Ha Hv Hpre He Ht.
  assert (next_id (pre ++ e :: post) cid = Done t) as Hn.
  { unfold next_id. rewrite (next_edges_first _ _ _ _ Hpre He).
    unfold subscript. by rewrite Ht. }
  split; [done|].
  rewrite (walk_continue _ _ _ _ _ _ _ _ _ _ _ Ha Hv), Hn. reflexivity.
Qed.

Ltac solve_arrives :=
  unfold arrives;
  split; [reflexivity|];
  split; [reflexivity|];
  split; [rewrite ?elem_of_singleton; first [apply not_elem_of_empty | discriminate]|];
  split; [vm_compute; reflexivity | reflexivity].

Lemma false_condition_stops_path_witness :
  arrives (index_of (scenario_a_nodes "ctx['age'] >= 18")) (VStr "c1")
          {[KStr "t1"]} (KStr "c1")
          (mk_node "c1" "condition" [("expr", VStr "ctx['age'] >= 18")])
  ∧ walk eval_str tick_clock (index_of (scenario_a_nodes "ctx['age'] >= 18"))
         scenario_a_edges 3 (VStr "c1") {[KStr "t1"]}
         (MkState ["[t0] Trigger: start"] under_age 1)
    = Done (MkState ["[t0] Trigger: start"; "[t1] Condition 'ctx['age'] >= 18' -> False"]
                    under_age 2).
Proof.
  assert (arrives (index_of (scenario_a_nodes "ctx['age'] >= 18")) (VStr "c1")
            {[KStr "t1"]} (KStr "c1")
            (mk_node "c1" "condition" [("expr", VStr "ctx['age'] >= 18")])) as Ha
    by solve_arrives.
  split; [exact Ha|].
  apply (false_condition_stops_path eval_str tick_clock _ scenario_a_edges 2 _ _ _ _
           [("expr", VStr "ctx['age'] >= 18")] (VBool false) under_age
           (MkState ["[t0] Trigger: start"] under_age 1) Ha);
    reflexivity.
Defined.

Lemma unknown_kind_is_noop_witness :
  arrives (index_of note_nodes) (VStr "n1") {[KStr "t1"]} (KStr "n1") (mk_node "n1" "note" [])
  ∧ walk eval_str tick_clock (index_of note_nodes) note_edges 3 (VStr "n1") {[KStr "t1"]}
         (MkState ["[t0] Trigger: start"] [] 1)
    = walk eval_str tick_clock (index_of note_nodes) note_edges 2 (VStr "a1")
           ({[KStr "n1"]} ∪ {[KStr "t1"]}) (MkState ["[t0] Trigger: start"] [] 2).
Proof.
  assert (arrives (index_of note_nodes) (VStr "n1") {[KStr "t1"]} (KStr "n1")
            (mk_node "n1" "note" [])) as Ha by solve_arrives.
  split; [exact Ha|].
  destruct (unknown_kind_is_noop eval_str tick_clock _ note_edges 2 _ _ _ _
              (MkState ["[t0] Trigger: start"] [] 1) Ha) as (_ & _ & Hfirst & _);
    [discriminate..|].
  apply (Hfirst [mk_edge "t1" "n1"] (mk_edge "n1" "a1") [] (VStr "a1")).
  - reflexivity.
  - repeat constructor.
  - reflexivity.
  - reflexivity.
Defined.

(** The unknown node is passed in silence and the action behind it runs. *)
Example note_flow_logs (clock : nat → string) :
  execute_flow eval_str clock note_nodes note_edges [] =
    Done (MkResponse true [line clock 0 "Trigger: start"; line clock 1 "Action: noop"] []).
Proof. vm_compute. reflexivity. Qed.

Lemma first_matching_edge_followed_witness :
  arrives (index_of fork_nodes) (VStr "t1") ∅ (KStr "t1") (mk_node "t1" "trigger" [])
  ∧ next_id ([] ++ mk_edge "t1" "a1" :: [mk_edge "t1" "a2"]) (VStr "t1") = Done (VStr "a1").
Proof.
  assert (arrives (index_of fork_nodes) (VStr "t1") ∅ (KStr "t1")
            (mk_node "t1" "trigger" [])) as Ha by solve_arrives.
  split; [exact Ha|].
  apply (first_matching_edge_followed eval_str tick_clock (index_of fork_nodes)
           [] [mk_edge "t1" "a2"] (mk_edge "t1" "a1") 3 (VStr "t1") ∅ (KStr "t1")
           (mk_node "t1" "trigger" []) (MkState [] [] 0)
           (MkState ["[t0] Trigger: start"] [] 1) (VStr "a1") Ha).
  - reflexivity.
  - constructor.
  - reflexivity.
  - reflexivity.
Defined.

(** Only the action behind the earlier edge runs. *)
Example fork_flow_logs (clock : nat → string) :
  execute_flow eval_str clock fork_nodes fork_edges [] =
    Done (MkResponse true [line clock 0 "Trigger: start"; line clock 1 "Action: first"] []).
Proof. vm_compute. reflexivity. Qed.

(** C4, as the code has it.  When the loop enters a condition node whose
    expression raises an [Exception] in [eval] (a syntax error, a type
    mismatch, a source that is no string), the turn appends the ordinary
    line [Condition '<expr>' -> False], without a reason, and the loop
    ends there by returning; a traversal that came to this point hands
    the state to the next start node. *)
Theorem failed_condition_logged_as_false (ev : string → dictT → eval_outcome)
    (clock : nat → string) (nm : gmap hkey dictT) (edges : list dictT)
    (fuel : nat) (cid : value) (visited : gset hkey) (k : hkey)
    (node cfg : dictT) (e : exn) (ctx' : dictT) (st : estate) :
  arrives nm cid visited k node →
  node_type node = VStr "condition" →
  get_default "config" node (VDict []) = VDict cfg →
  py_eval ev (get_default "expr" cfg (VStr "True")) (st_ctx st) = EvError e ctx' →
  let msg := "Condition '" +:+ py_str (get_default "expr" cfg (VStr "True")) +:+ "' -> False" in
  let st' := MkState (st_logs st ++ [line clock (length (st_logs st)) msg]) ctx'
                     (S (st_steps st)) in
  walk ev clock nm edges (S fuel) cid visited st = Done st'
  ∧ (∀ fuel0 start rest st0,
       walk ev clock nm edges fuel0 (node_id start) ∅ st0
         = walk ev clock nm edges (S fuel) cid visited st →
       for_starts ev clock nm edges fuel0 (start :: rest) st0
         = for_starts ev clock nm edges fuel0 rest st').
Proof.
  intros Ha Ht Hc He msg st'.
  assert (walk ev clock nm edges (S fuel) cid visited st = Done st') as Hw.
  { eapply walk_break; [done|].
    rewrite (visit_condition _ _ _ _ _ Ht Hc). simpl. rewrite He. reflexivity. }
  split; [done|].
  intros fuel0 start rest st0 E. simpl. rewrite E, Hw. reflexivity.
Qed.

Lemma failed_condition_logged_as_false_witness :
  arrives (index_of (scenario_a_nodes mismatch_expr)) (VStr "c1") {[KStr "t1"]} (KStr "c1")
          (mk_node "c1" "condition" [("expr", VStr mismatch_expr)])
  ∧ walk eval_str tick_clock (index_of (scenario_a_nodes mismatch_expr))
         scenario_a_edges 3 (VStr "c1") {[KStr "t1"]}
         (MkState ["[t0] Trigger: start"] of_age 1)
    = Done (MkState ["[t0] Trigger: start"; "[t1] Condition 'ctx['age'] < 'x'' -> False"]
                    of_age 2).
Proof.
  assert (arrives (index_of (scenario_a_nodes mismatch_expr)) (VStr "c1") {[KStr "t1"]}
            (KStr "c1") (mk_node "c1" "condition" [("expr", VStr mismatch_expr)])) as Ha
    by solve_arrives.
  split; [exact Ha|].
  apply (failed_condition_logged_as_false eval_str tick_clock _ scenario_a_edges 2 _ _ _ _
           [("expr", VStr mismatch_expr)] TypeError of_age
           (MkState ["[t0] Trigger: start"] of_age 1) Ha);
    reflexivity.
Defined.

(** C4, as stated, fails: comparing an integer with a string raises
    [TypeError], and the trace has no event "failed to evaluate". *)
Lemma failed_condition_has_no_reason_event :
  PyExpr.eval_source mismatch_expr of_age = Some (PyExpr.Err TypeError)
  ∧ ∃ r, execute_flow eval_str tick_clock (scenario_a_nodes mismatch_expr)
           scenario_a_edges of_age = Done r
       ∧ logs r = ["[t0] Trigger: start"; "[t1] Condition 'ctx['age'] < 'x'' -> False"]
       ∧ logs_mention "failed to evaluate" (logs r) = false.
Proof.
  split; [vm_compute; reflexivity|].
  eexists. split; [vm_compute; reflexivity|]. split; reflexivity.
Qed.

(** [eval] sees [ctx] as a dict, which has no attribute [age]. *)
Example eval_attribute_of_dict (ctx : dictT) :
  PyExpr.eval_source "ctx.age >= 18" ctx = Some (PyExpr.Err AttributeError).
Proof. vm_compute. reflexivity. Qed.

Example eval_subscript_of_dict :
  PyExpr.eval_source "ctx['age'] >= 18" of_age = Some (PyExpr.Val (VBool true))
  ∧ PyExpr.eval_source "ctx['age'] >= 18" under_age = Some (PyExpr.Val (VBool false))
  ∧ PyExpr.eval_source "ctx.get('age', 0) >= 18 and not 'vip' in ctx" of_age
      = Some (PyExpr.Val (VBool true))
  ∧ PyExpr.eval_source "ctx['name'] == 'x'" of_age = Some (PyExpr.Err KeyError).
Proof. repeat split; vm_compute; reflexivity. Qed.

(** The handler looks for the key ["type"]: nodes that carry their kind
    under ["kind"] are all of unknown kind, and Scenario A logs nothing. *)
Example scenario_a_kind_key_logs_nothing (clock : nat → string) (payload : dictT) :
  execute_flow eval_str clock
    [[("id", VStr "t1"); ("kind", VStr "trigger"); ("config", VDict [("name", VStr "start")])];
     [("id", VStr "c1"); ("kind", VStr "condition");
      ("config", VDict [("expr", VStr "ctx.age >= 18")])];
     [("id", VStr "a1"); ("kind", VStr "action");
      ("config", VDict [("name", VStr "send_message"); ("text", VStr "Welcome")])]]
    scenario_a_edges payload
  = Done (MkResponse true [] payload).
Proof. vm_compute. reflexivity. Qed.

(** C1, as stated, fails: [ctx] is a dict, so [ctx.age] raises
    [AttributeError]; with payload [{"age": 21}] the condition line shows
    [False] and no action event follows. *)
Lemma scenario_a_of_age_has_no_action :
  ∃ r, execute_flow eval_str tick_clock (scenario_a_nodes "ctx.age >= 18")
         scenario_a_edges of_age = Done r
     ∧ logs_mention "Trigger: start" (logs r) = true
     ∧ logs_mention "Condition 'ctx.age >= 18' -> true" (logs r) = false
     ∧ logs_mention "Action: send_message -> Welcome" (logs r) = false.
Proof.
  eexists. split; [vm_compute; reflexivity|]. repeat split; reflexivity.
Qed.

(** C1, as the code has it.  On Scenario A's graph the expression
    [ctx.age >= 18] raises for every payload, so the logs are the
    trigger line and the condition line with [False], and the action is
    never logged.  Written as a subscript, [ctx['age'] >= 18], the
    condition holds for age 21, whose logs are the three events with
    [-> True], and fails for age 10, whose logs end with [-> False]. *)
Theorem scenario_a_logs (clock : nat → string) (payload : dictT) :
  execute_flow eval_str clock (scenario_a_nodes "ctx.age >= 18") scenario_a_edges payload =
    Done (MkResponse true [line clock 0 "Trigger: start";
                      line clock 1 "Condition 'ctx.age >= 18' -> False"] payload)
  ∧ execute_flow eval_str clock (scenario_a_nodes "ctx['age'] >= 18") scenario_a_edges of_age =
      Done (MkResponse true [line clock 0 "Trigger: start";
                        line clock 1 "Condition 'ctx['age'] >= 18' -> True";
                        line clock 2 "Action: send_message -> Welcome"] of_age)
  ∧ execute_flow eval_str clock (scenario_a_nodes "ctx['age'] >= 18") scenario_a_edges under_age =
      Done (MkResponse true [line clock 0 "Trigger: start";
                        line clock 1 "Condition 'ctx['age'] >= 18' -> False"] under_age).
Proof. repeat split; vm_compute; reflexivity. Qed.

(** C2, as stated, fails: two nodes share the id ["n"] and the call
    returns, both traversals running the later node; a node with the
    empty id is accepted as well and yields no event. *)
Lemma duplicate_ids_do_not_fail :
  node_id (mk_node "n" "trigger" [("name", VStr "first")])
    = node_id (mk_node "n" "trigger" [("name", VStr "second")])
  ∧ execute_flow eval_str tick_clock twin_nodes [] [] =
      Done (MkResponse true ["[t0] Trigger: second"; "[t1] Trigger: second"] [])
  ∧ execute_flow eval_str tick_clock [mk_node "" "trigger" []] [] [] =
      Done (MkResponse true [] []).
Proof. repeat split; vm_compute; reflexivity. Qed.

(** C2, as the code has it.  There is no validation of identifiers.  For
    every node list whose ids can be hashed (strings, numbers, booleans,
    [None] for a missing id), duplicated or empty ids included, the index
    is built; under each key it holds the last node of the list with that
    id; the call goes on to the loop over the start nodes; and a loop
    started at the empty id returns at once, logging nothing. *)
Theorem duplicate_ids_last_wins (ev : string → dictT → eval_outcome)
    (clock : nat → string) (nodes edges : list dictT) (payload : dictT) :
  Forall (λ n, is_Some (py_hash (node_id n))) nodes →
  ∃ nm, build_node_map nodes ∅ = Done nm
      ∧ (∀ k, nm !! k = last_with_key k nodes)
      ∧ execute_flow ev clock nodes edges payload =
          (let* st := for_starts ev clock nm edges (S (length nodes)) (start_nodes nodes)
                        (MkState [] payload 0) in
           Done (MkResponse true (st_logs st) (st_ctx st)))
      ∧ (∀ fuel visited st, walk ev clock nm edges fuel (VStr "") visited st = Done st).
Proof.
  intros H. destruct (build_node_map_total nodes ∅ H) as [nm Hb].
  exists nm. split; [done|]. split.
  { intros k. rewrite (build_node_map_lookup _ _ _ k Hb), lookup_empty.
    by destruct (last_with_key k nodes). }
  split; [by apply execute_flow_indexed|].
  intros fuel visited st. by apply walk_falsy.
Qed.

Lemma duplicate_ids_last_wins_witness :
  Forall (λ n, is_Some (py_hash (node_id n))) twin_nodes
  ∧ ∃ nm, build_node_map twin_nodes ∅ = Done nm
        ∧ nm !! KStr "n" = Some (mk_node "n" "trigger" [("name", VStr "second")]).
Proof.
  assert (Forall (λ n, is_Some (py_hash (node_id n))) twin_nodes) as H
    by (repeat constructor; eexists; reflexivity).
  split; [exact H|].
  destruct (duplicate_ids_last_wins eval_str tick_clock twin_nodes [] [] H)
    as (nm & Hb & Hl & _).
  exists nm. split; [exact Hb|]. rewrite Hl. reflexivity.
Defined.

(** * Further properties of the engine *)

(** ** Invariants of the loops *)

(** A property of the state kept by every turn is kept by the loop. *)
Lemma walk_invariant (ev : string → dictT → eval_outcome) (clock : nat → string)
    (nm : gmap hkey dictT) (edges : list dictT) (P : estate → Prop) :
  (∀ st, P st → P (tick st)) →
  (∀ k node st b st', nm !! k = Some node → P st →
                      visit ev clock node st = Done (b, st') → P st') →
  ∀ fuel cid visited st st',
    P st → walk ev clock nm edges fuel cid visited st = Done st' → P st'.
Proof.
  intros Htick Hvisit. induction fuel as [|fuel IH]; intros cid visited st st' HP; simpl.
  - destruct (py_truthy cid); simpl; [|by intros [= <-]].
    destruct (py_hash cid); [|done]. case_decide; [by intros [= <-] | done].
  - destruct (py_truthy cid); simpl; [|by intros [= <-]].
    destruct (py_hash cid) as [k|]; [|done]. case_decide; [by intros [= <-]|].
    destruct (nm !! k) as [node|] eqn:Hn; [|intros [= <-]; auto].
    destruct (negb _); [intros [= <-]; auto|].
    destruct (visit ev clock node (tick st)) as [[b st1]| | |] eqn:Hv; simpl; try done.
    assert (P st1) by eauto.
    destruct b; simpl; [|by intros [= <-]].
    destruct (next_id edges cid); simpl; try done. by apply IH.
Qed.

Lemma for_starts_invariant (ev : string → dictT → eval_outcome) (clock : nat → string)
    (nm : gmap hkey dictT) (edges : list dictT) (P : estate → Prop) :
  (∀ st, P st → P (tick st)) →
  (∀ k node st b st', nm !! k = Some node → P st →
                      visit ev clock node st = Done (b, st') → P st') →
  ∀ fuel starts st st',
    P st → for_starts ev clock nm edges fuel starts st = Done st' → P st'.
Proof.
  intros Htick Hvisit fuel starts.
  induction starts as [|s rest IH]; intros st st' HP; simpl; [by intros [= <-]|].
  destruct (walk ev clock nm edges fuel (node_id s) ∅ st) as [st1| | |] eqn:Hw; simpl; try done.
  apply IH. eapply walk_invariant; eauto.
Qed.

(** What one visit does to the logs: nothing, or one line stamped with
    the next clock reading. *)
Lemma visit_logs (ev : string → dictT → eval_outcome) (clock : nat → string)
    (node : dictT) (st : estate) (b : bool) (st' : estate) :
  visit ev clock node st = Done (b, st') →
  st_logs st' = st_logs st
  ∨ ∃ msg, st_logs st' = (st_logs st ++ [line clock (length (st_logs st)) msg])%list.
Proof.
  unfold visit, bind, method_get, py_eval.
  repeat (case_match; simpl in *; try discriminate);
    intros ?; simplify_eq; simpl; eauto.
Qed.

Lemma eval_str_keeps_ctx (s : string) (c : dictT) : ctx_after (eval_str s c) c = c.
Proof. unfold eval_str. repeat case_match; reflexivity. Qed.

Lemma start_nodes_sublist (nodes : list dictT) : start_nodes nodes `sublist_of` nodes.
Proof.
  unfold start_nodes.
  pose proof (sublist_filter (λ n, is_trigger n = true) nodes) as Hf.
  destruct (filter _ nodes); [apply sublist_take | exact Hf].
Qed.

(** ** The context *)

(** What one visit does to the context: only the [eval] of a condition
    can change it. *)
Lemma visit_ctx (ev : string → dictT → eval_outcome) (clock : nat → string)
    (node : dictT) (st : estate) (b : bool) (st' : estate) :
  keeps_ctx ev node →
  visit ev clock node st = Done (b, st') → st_ctx st' = st_ctx st.
Proof.
  intros Hk. unfold visit, bind, method_get.
  destruct (py_eq (node_type node) (VStr "trigger")).
  { repeat case_match; intros ?; simplify_eq; done. }
  destruct (py_eq (node_type node) (VStr "condition")) eqn:Hc.
  - apply py_eq_str in Hc. specialize (Hk Hc (st_ctx st)). unfold node_expr in Hk.
    destruct (get_default "config" node (VDict [])); try done.
    destruct (py_eval ev _ _); simpl in *; intros ?; simplify_eq; done.
  - repeat case_match; intros ?; simplify_eq; done.
Qed.

Lemma py_eval_eval_str_keeps_ctx (cond : value) (c : dictT) :
  ctx_after (py_eval eval_str cond c) c = c.
Proof. destruct cond; simpl; try done. apply eval_str_keeps_ctx. Qed.

(** X1.  Triggers and actions never touch the context: when [eval]
    leaves the context as it found it on the expression of every
    condition node of the graph (which asks nothing of a graph without
    condition nodes), the context of the response is the payload. *)
Theorem context_returned_unchanged (ev : string → dictT → eval_outcome)
    (clock : nat → string) (nodes edges : list dictT) (payload : dictT) (r : response) :
  Forall (keeps_ctx ev) nodes →
  execute_flow ev clock nodes edges payload = Done r →
  context r = payload.
Proof.
  intros Hev. unfold execute_flow.
  destruct (build_node_map nodes ∅) as [nm| | |] eqn:Hb; simpl; try done.
  destruct (for_starts _ _ _ _ _ _ _) as [st| | |] eqn:Hf; simpl; try done.
  intros [= <-]. simpl.
  apply (for_starts_invariant ev clock nm edges (λ s, st_ctx s = payload)) in Hf; try done.
  intros k node s b s' Hk <- Hv. apply visit_ctx in Hv; [done|].
  apply (build_node_map_elem _ _ _ _ Hb) in Hk. rewrite Forall_forall in Hev. auto.
Qed.

Lemma context_returned_unchanged_witness :
  Forall (keeps_ctx eval_str) (scenario_a_nodes "ctx['age'] >= 18")
  ∧ execute_flow eval_str tick_clock (scenario_a_nodes "ctx['age'] >= 18") scenario_a_edges of_age
    = Done (MkResponse true ["[t0] Trigger: start";
                             "[t1] Condition 'ctx['age'] >= 18' -> True";
                             "[t2] Action: send_message -> Welcome"] of_age)
  ∧ context (MkResponse true ["[t0] Trigger: start";
                              "[t1] Condition 'ctx['age'] >= 18' -> True";
                              "[t2] Action: send_message -> Welcome"] of_age) = of_age.
Proof.
  assert (Forall (keeps_ctx eval_str) (scenario_a_nodes "ctx['age'] >= 18")) as Hk.
  { apply Forall_forall. intros n _ _ c. apply py_eval_eval_str_keeps_ctx. }
  assert (execute_flow eval_str tick_clock (scenario_a_nodes "ctx['age'] >= 18")
            scenario_a_edges of_age
          = Done (MkResponse true ["[t0] Trigger: start";
                                   "[t1] Condition 'ctx['age'] >= 18' -> True";
                                   "[t2] Action: send_message -> Welcome"] of_age)) as H
    by (vm_compute; reflexivity).
  split; [exact Hk|]. split; [exact H|].
  exact (context_returned_unchanged eval_str tick_clock _ _ _ _ Hk H).
Defined.

(** ** The trace *)

(** X2.  The logs of a response are stamped in order: line [i] is
    ["[" + clock i + "] " + msg] for some message, so each line carries
    the clock reading taken when it was appended and no reading is
    skipped or used twice. *)
Theorem logs_stamped_in_order (ev : string → dictT → eval_outcome)
    (clock : nat → string) (nodes edges : list dictT) (payload : dictT) (r : response) :
  execute_flow ev clock nodes edges payload = Done r →
  ∃ msgs, logs r = imap (line clock) msgs.
Proof.
  unfold execute_flow.
  destruct (build_node_map nodes ∅) as [nm| | |]; simpl; try done.
  destruct (for_starts _ _ _ _ _ _ _) as [st| | |] eqn:Hf; simpl; try done.
  intros [= <-]. simpl.
  apply (for_starts_invariant ev clock nm edges
           (λ s, ∃ msgs, st_logs s = imap (line clock) msgs)) in Hf; try done.
  - intros k node s b s' _ [msgs Hm] Hv.
    apply visit_logs in Hv as [->|[msg ->]]; [eauto|].
    exists (msgs ++ [msg])%list.
    rewrite imap_app, Hm, length_imap. simpl. by rewrite Nat.add_0_r.
  - by exists [].
Qed.

Lemma logs_stamped_in_order_witness :
  ∃ msgs, ["[t0] Trigger: start"; "[t1] Action: noop"] = imap (line tick_clock) msgs.
Proof.
  apply (logs_stamped_in_order eval_str tick_clock note_nodes note_edges []
           (MkResponse true ["[t0] Trigger: start"; "[t1] Action: noop"] [])).
  vm_compute. reflexivity.
Defined.

Lemma visit_logs_length (ev : string → dictT → eval_outcome) (clock : nat → string)
    (node : dictT) (st : estate) (b : bool) (st' : estate) :
  visit ev clock node st = Done (b, st') →
  (length (st_logs st') ≤ S (length (st_logs st)))%nat.
Proof.
  intros [->|[msg ->]]%visit_logs; [lia|]. rewrite length_app. simpl. lia.
Qed.

(** A traversal logs at most one line per indexed identifier it has not
    yet visited. *)
Lemma walk_logs_bound (ev : string → dictT → eval_outcome) (clock : nat → string)
    (nm : gmap hkey dictT) (edges : list dictT) (fuel : nat) (cid : value)
    (visited : gset hkey) (st st' : estate) :
  walk ev clock nm edges fuel cid visited st = Done st' →
  (length (st_logs st') ≤ length (st_logs st) + unvisited nm visited)%nat.
Proof.
  revert cid visited st. induction fuel as [|fuel IH]; intros cid visited st; simpl.
  - destruct (py_truthy cid); simpl; [|intros [= <-]; lia].
    destruct (py_hash cid); [|done]. case_decide; [intros [= <-]; lia | done].
  - destruct (py_truthy cid); simpl; [|intros [= <-]; lia].
    destruct (py_hash cid) as [k|]; [|done]. case_decide as Hv; [intros [= <-]; lia|].
    destruct (nm !! k) as [node|] eqn:Hn; [|intros [= <-]; simpl; lia].
    destruct (negb _); [intros [= <-]; simpl; lia|].
    destruct (visit ev clock node (tick st)) as [[b st1]| | |] eqn:Hvis; simpl; try done.
    apply visit_logs_length in Hvis. simpl in Hvis.
    pose proof (unvisited_enter nm visited k Hv (mk_is_Some _ _ Hn)) as Hm.
    destruct b; simpl; [|intros [= <-]; lia].
    destruct (next_id edges cid); simpl; try done.
    intros Hw%IH. lia.
Qed.

Lemma for_starts_logs_bound (ev : string → dictT → eval_outcome) (clock : nat → string)
    (nm : gmap hkey dictT) (edges : list dictT) (fuel : nat)
    (starts : list dictT) (st st' : estate) :
  for_starts ev clock nm edges fuel starts st = Done st' →
  (length (st_logs st') ≤ length (st_logs st) + length starts * size nm)%nat.
Proof.
  revert st. induction starts as [|s rest IH]; intros st; simpl; [intros [= <-]; lia|].
  destruct (walk ev clock nm edges fuel (node_id s) ∅ st) as [st1| | |] eqn:Hw; simpl; try done.
  apply walk_logs_bound in Hw. rewrite unvisited_empty in Hw.
  intros Hr%IH. lia.
Qed.

(** X3.  The trace is bounded by the graph: a response holds at most as
    many lines as there are start nodes times nodes. *)
Theorem logs_bounded_by_graph (ev : string → dictT → eval_outcome)
    (clock : nat → string) (nodes edges : list dictT) (payload : dictT) (r : response) :
  execute_flow ev clock nodes edges payload = Done r →
  (length (logs r) ≤ length (start_nodes nodes) * length nodes)%nat.
Proof.
  unfold execute_flow.
  destruct (build_node_map nodes ∅) as [nm| | |] eqn:Hb; simpl; try done.
  destruct (for_starts _ _ _ _ _ _ _) as [st| | |] eqn:Hf; simpl; try done.
  intros [= <-]. simpl.
  apply for_starts_logs_bound in Hf. simpl in Hf.
  apply build_node_map_size in Hb. rewrite map_size_empty in Hb.
  assert (length (start_nodes nodes) * size nm
          ≤ length (start_nodes nodes) * length nodes)%nat
    by (apply Nat.mul_le_mono_l; lia).
  lia.
Qed.

Lemma logs_bounded_by_graph_witness :
  (length ["[t0] Trigger: start"; "[t1] Action: first"]
   ≤ length (start_nodes fork_nodes) * length fork_nodes)%nat.
Proof.
  apply (logs_bounded_by_graph eval_str tick_clock fork_nodes fork_edges []
           (MkResponse true ["[t0] Trigger: start"; "[t1] Action: first"] [])).
  vm_compute. reflexivity.
Defined.

Lemma for_starts_cons (ev : string → dictT → eval_outcome) (clock : nat → string)
    (nm : gmap hkey dictT) (edges : list dictT) (fuel : nat)
    (s : dictT) (rest : list dictT) (st : estate) :
  for_starts ev clock nm edges fuel (s :: rest) st =
    let* st' := walk ev clock nm edges fuel (node_id s) ∅ st in
    for_starts ev clock nm edges fuel rest st'.
Proof. reflexivity. Qed.

Lemma for_starts_app (ev : string → dictT → eval_outcome) (clock : nat → string)
    (nm : gmap hkey dictT) (edges : list dictT) (fuel : nat)
    (s1 s2 : list dictT) (st : estate) :
  for_starts ev clock nm edges fuel (s1 ++ s2) st =
    let* st1 := for_starts ev clock nm edges fuel s1 st in
    for_starts ev clock nm edges fuel s2 st1.
Proof.
  revert st. induction s1 as [|s rest IH]; intros st; simpl; [done|].
  destruct (walk ev clock nm edges fuel (node_id s) ∅ st); simpl; [apply IH | done..].
Qed.

Lemma for_starts_prefix (ev : string → dictT → eval_outcome) (clock : nat → string)
    (nm : gmap hkey dictT) (edges : list dictT) (fuel : nat)
    (starts : list dictT) (st st' : estate) :
  for_starts ev clock nm edges fuel starts st = Done st' →
  st_logs st `prefix_of` st_logs st'.
Proof.
  intros Hf.
  apply (for_starts_invariant ev clock nm edges (λ s, st_logs st `prefix_of` st_logs s))
    in Hf; try done.
  intros k node s b s' _ Hp Hv.
  apply visit_logs in Hv as [->|[msg ->]]; [done | by apply prefix_app_r].
Qed.

(** X4.  Start nodes are served one after the other on one trace: the
    run over [s1 ++ s2] is the run over [s1] followed by the run over
    [s2] from the state the first one left, and a later traversal only
    appends, so the lines of the earlier start nodes stay as they are at
    the head of the logs. *)
Theorem later_start_nodes_only_append (ev : string → dictT → eval_outcome)
    (clock : nat → string) (nm : gmap hkey dictT) (edges : list dictT) (fuel : nat)
    (s1 s2 : list dictT) (st st1 st2 : estate) :
  for_starts ev clock nm edges fuel s1 st = Done st1 →
  for_starts ev clock nm edges fuel s2 st1 = Done st2 →
  for_starts ev clock nm edges fuel (s1 ++ s2) st = Done st2
  ∧ st_logs st `prefix_of` st_logs st1
  ∧ st_logs st1 `prefix_of` st_logs st2.
Proof.
  intros H1 H2. split; [by rewrite for_starts_app, H1|].
  split; eapply for_starts_prefix; eauto.
Qed.

Lemma later_start_nodes_only_append_witness :
  for_starts eval_str tick_clock (index_of twin_nodes) [] 3
    ([mk_node "n" "trigger" [("name", VStr "first")]]
     ++ [mk_node "n" "trigger" [("name", VStr "second")]]) (MkState [] [] 0)
  = Done (MkState ["[t0] Trigger: second"; "[t1] Trigger: second"] [] 2)
  ∧ [] `prefix_of` ["[t0] Trigger: second"]
  ∧ ["[t0] Trigger: second"] `prefix_of` ["[t0] Trigger: second"; "[t1] Trigger: second"].
Proof.
  apply (later_start_nodes_only_append eval_str tick_clock (index_of twin_nodes) [] 3
           [mk_node "n" "trigger" [("name", VStr "first")]]
           [mk_node "n" "trigger" [("name", VStr "second")]]
           (MkState [] [] 0) (MkState ["[t0] Trigger: second"] [] 1)
           (MkState ["[t0] Trigger: second"; "[t1] Trigger: second"] [] 2));
    vm_compute; reflexivity.
Defined.

(** ** Errors *)

Lemma build_node_map_unhashable (nodes : list dictT) (m : gmap hkey dictT) :
  Exists (λ n, py_hash (node_id n) = None) nodes →
  build_node_map nodes m = Raised TypeError.
Proof.
  intros H. revert m. induction H as [n ns Hn|n ns _ IH]; intros m; simpl.
  - by rewrite Hn.
  - destruct (py_hash (node_id n)); [apply IH | done].
Qed.

(** X5.  A node whose id is a list or a dict cannot be a key of the
    index: the call raises [TypeError] before anything is logged. *)
Theorem unhashable_id_raises (ev : string → dictT → eval_outcome)
    (clock : nat → string) (nodes edges : list dictT) (payload : dictT) :
  Exists (λ n, py_hash (node_id n) = None) nodes →
  execute_flow ev clock nodes edges payload = Raised TypeError.
Proof.
  intros H. unfold execute_flow. by rewrite (build_node_map_unhashable _ _ H).
Qed.

Lemma unhashable_id_raises_witness :
  execute_flow eval_str tick_clock
    [mk_node "t1" "trigger" []; [("id", VList [VInt 1]); ("type", VStr "action")]]
    [] [] = Raised TypeError.
Proof.
  apply unhashable_id_raises. apply Exists_cons_tl, Exists_cons_hd. reflexivity.
Defined.

Lemma next_id_sound (edges : list dictT) (cid : value) :
  Forall sound_edge edges →
  ∃ t, next_id edges cid = Done t ∧ is_Some (py_hash t).
Proof.
  intros He. unfold next_id.
  destruct (next_edges edges cid) as [|e es] eqn:Hn; [by exists VNone|].
  assert (e ∈ edges) as Hin.
  { assert (e ∈ next_edges edges cid) as Hin by (rewrite Hn; left).
    unfold next_edges in Hin. by apply list_elem_of_filter in Hin as [_ ?]. }
  rewrite Forall_forall in He. destruct (He e Hin) as (t & Ht & Hh).
  exists t. unfold subscript. by rewrite Ht.
Qed.

Lemma visit_returns (ev : string → dictT → eval_outcome) (clock : nat → string)
    (node : dictT) (st : estate) :
  (∃ d, get_default "config" node (VDict []) = VDict d) →
  tame_condition ev node →
  ∃ b st', visit ev clock node st = Done (b, st').
Proof.
  intros [d Hd] Ht. unfold visit. rewrite Hd. simpl.
  destruct (py_eq (node_type node) (VStr "trigger")); [eauto|].
  destruct (py_eq (node_type node) (VStr "condition")) eqn:Hc.
  - apply py_eq_str in Hc. destruct (Ht Hc (st_ctx st)) as [Hesc Hhang].
    unfold node_expr in Hesc, Hhang. rewrite Hd in Hesc, Hhang.
    destruct (py_eval ev _ _) as [v c|e c|e|]; eauto.
    + by destruct (Hesc e).
    + done.
  - destruct (py_eq (node_type node) (VStr "action")); [|eauto].
    repeat case_match; eauto.
Qed.

(** On a sound graph the loop returns, or the model runs out of fuel. *)
Lemma walk_returns (ev : string → dictT → eval_outcome) (clock : nat → string)
    (nm : gmap hkey dictT) (edges : list dictT) :
  (∀ k node, nm !! k = Some node →
     (∃ d, get_default "config" node (VDict []) = VDict d) ∧ tame_condition ev node) →
  Forall sound_edge edges →
  ∀ fuel cid visited st,
    is_Some (py_hash cid) →
    (∃ st', walk ev clock nm edges fuel cid visited st = Done st')
    ∨ walk ev clock nm edges fuel cid visited st = OutOfFuel.
Proof.
  intros Hnm He. induction fuel as [|fuel IH]; intros cid visited st [k Hk]; simpl.
  - destruct (py_truthy cid); simpl; [|eauto]. rewrite Hk. case_decide; eauto.
  - destruct (py_truthy cid); simpl; [|eauto]. rewrite Hk. case_decide; [eauto|].
    destruct (nm !! k) as [node|] eqn:Hn; [|eauto].
    destruct (negb _); [eauto|].
    destruct (Hnm _ _ Hn) as [Hcfg Ht].
    destruct (visit_returns ev clock node (tick st) Hcfg Ht) as (b & st1 & ->). simpl.
    destruct b; simpl; [|eauto].
    destruct (next_id_sound edges cid He) as (t & -> & Hh). simpl. by apply IH.
Qed.

(** X6.  A well-formed graph never makes the call raise: when every node
    id can be hashed, every ["config"] present is a dict, every edge has
    a hashable ["to"], and on the expression of every condition node
    [eval] returns a value or raises an [Exception] (it raises nothing
    past [except Exception], and it does return), the call returns a
    response, cycles and dangling edges included. *)
Theorem sound_graph_returns (ev : string → dictT → eval_outcome)
    (clock : nat → string) (nodes edges : list dictT) (payload : dictT) :
  Forall sound_node nodes →
  Forall (tame_condition ev) nodes →
  Forall sound_edge edges →
  ∃ r, execute_flow ev clock nodes edges payload = Done r.
Proof.
  intros Hn Ht He.
  pose proof (execute_flow_fuel ev clock nodes edges payload) as Hfuel.
  destruct (build_node_map_total nodes ∅) as [nm Hb].
  { eapply Forall_impl; [exact Hn|]. by intros n [? _]. }
  rewrite (execute_flow_indexed _ _ _ _ _ _ Hb) in *.
  assert (∀ k node, nm !! k = Some node →
            (∃ d, get_default "config" node (VDict []) = VDict d) ∧ tame_condition ev node)
    as Hnm.
  { intros k node Hk. apply (build_node_map_elem _ _ _ _ Hb) in Hk.
    rewrite Forall_forall in Hn, Ht. destruct (Hn _ Hk). auto. }
  assert (∀ starts st, Forall (λ n, is_Some (py_hash (node_id n))) starts →
            (∃ st', for_starts ev clock nm edges (S (length nodes)) starts st = Done st')
            ∨ for_starts ev clock nm edges (S (length nodes)) starts st = OutOfFuel) as Hs.
  { induction starts as [|s rest IH]; intros st Hst; [left; by eexists|].
    apply Forall_cons in Hst as [Hs Hrest]. rewrite for_starts_cons.
    destruct (walk_returns ev clock nm edges Hnm He (S (length nodes)) (node_id s) ∅ st Hs)
      as [[st1 ->]| ->]; simpl; [by apply IH | by right]. }
  destruct (Hs (start_nodes nodes) (MkState [] payload 0)) as [[st' Hf]|Hf].
  - rewrite Forall_forall. intros n Hin.
    assert (n ∈ nodes) as Hin' by (eapply elem_of_sublist; [done | apply start_nodes_sublist]).
    rewrite Forall_forall in Hn. by destruct (Hn _ Hin').
  - rewrite Hf. simpl. eauto.
  - rewrite Hf in Hfuel. done.
Qed.

Lemma sound_graph_returns_witness :
  ∃ r, execute_flow eval_str tick_clock (scenario_a_nodes "ctx.age >= 18")
         (scenario_a_edges ++ [mk_edge "a1" "t1"; mk_edge "a1" "ghost"]) of_age = Done r.
Proof.
  apply sound_graph_returns.
  - repeat constructor; eexists; reflexivity.
  - apply Forall_forall. intros n Hin Hty ctx.
    unfold scenario_a_nodes in Hin. rewrite !elem_of_cons, elem_of_nil in Hin.
    destruct Hin as [->|[->|[->|[]]]]; try discriminate Hty.
    split; [intros e|]; vm_compute; discriminate.
  - repeat constructor; eexists; (split; [reflexivity | eexists; reflexivity]).
Defined.

(** ** How a path ends and goes on *)

(** X7.  The three silent ends of a path.  A falsy identifier (no
    matching edge gives [None]; an empty or null ["to"]) and an
    identifier already visited leave the loop before the body, with the
    state as it is; an identifier that is not in the index (a dangling
    edge) leaves it by the first [break], having logged nothing.  None of
    them raises. *)
Theorem path_ends_silently (ev : string → dictT → eval_outcome)
    (clock : nat → string) (nm : gmap hkey dictT) (edges : list dictT)
    (fuel : nat) (cid : value) (visited : gset hkey) (k : hkey) (st : estate) :
  py_hash cid = Some k →
  (py_truthy cid = false → walk ev clock nm edges fuel cid visited st = Done st)
  ∧ (k ∈ visited → walk ev clock nm edges fuel cid visited st = Done st)
  ∧ (py_truthy cid = true → k ∉ visited → nm !! k = None →
     walk ev clock nm edges (S fuel) cid visited st
       = Done (MkState (st_logs st) (st_ctx st) (S (st_steps st)))).
Proof.
  intros Hk. split; [apply walk_falsy|]. split.
  - intros Hv. destruct fuel; simpl; rewrite Hk;
      destruct (py_truthy cid); simpl; try done; by rewrite decide_True.
  - intros Ht Hv Hn. simpl. rewrite Ht, Hk. simpl. by rewrite decide_False, Hn.
Qed.

Lemma path_ends_silently_witness :
  walk eval_str tick_clock (index_of scenario_b_nodes) [mk_edge "t1" "ghost"] 1
       (VStr "ghost") {[KStr "t1"]} (MkState ["[t0] Trigger: start"] [] 1)
  = Done (MkState ["[t0] Trigger: start"] [] 2).
Proof.
  apply (path_ends_silently eval_str tick_clock (index_of scenario_b_nodes)
           [mk_edge "t1" "ghost"] 0 (VStr "ghost") {[KStr "t1"]} (KStr "ghost")
           (MkState ["[t0] Trigger: start"] [] 1)).
  - reflexivity.
  - reflexivity.
  - rewrite elem_of_singleton. discriminate.
  - vm_compute. reflexivity.
Defined.

(** A dangling edge in a whole call: the trigger is logged, the path
    ends at the missing node, and the call returns. *)
Example dangling_edge_flow (clock : nat → string) (payload : dictT) :
  execute_flow eval_str clock scenario_b_nodes [mk_edge "t1" "ghost"] payload
  = Done (MkResponse true [line clock 0 "Trigger: start"] payload).
Proof. vm_compute. reflexivity. Qed.

(** X8.  When the loop enters a condition node whose expression
    evaluates to a truthy object, the turn appends
    [Condition '<expr>' -> True], takes over the context [eval] left, and
    the loop goes on: it follows the earliest edge of the input that
    starts at the node, to that edge's ["to"], and it ends there when no
    edge starts at the node. *)
Theorem true_condition_continues (ev : string → dictT → eval_outcome)
    (clock : nat → string) (nm : gmap hkey dictT) (edges : list dictT)
    (fuel : nat) (cid : value) (visited : gset hkey) (k : hkey)
    (node cfg : dictT) (v : value) (ctx' : dictT) (st : estate) :
  arrives nm cid visited k node →
  node_type node = VStr "condition" →
  get_default "config" node (VDict []) = VDict cfg →
  py_eval ev (get_default "expr" cfg (VStr "True")) (st_ctx st) = EvValue v ctx' →
  py_truthy v = true →
  let msg := "Condition '" +:+ py_str (get_default "expr" cfg (VStr "True")) +:+ "' -> True" in
  let st' := MkState (st_logs st ++ [line clock (length (st_logs st)) msg]) ctx'
                     (S (st_steps st)) in
  (∀ pre e post t,
     edges = (pre ++ e :: post)%list →
     Forall (λ e', py_eq (get_default "from" e' VNone) cid = false) pre →
     py_eq (get_default "from" e VNone) cid = true →
     dict_get "to" e = Some t →
     walk ev clock nm edges (S fuel) cid visited st =
       walk ev clock nm edges fuel t ({[k]} ∪ visited) st')
  ∧ (Forall (λ e, py_eq (get_default "from" e VNone) cid = false) edges →
     walk ev clock nm edges (S fuel) cid visited st = Done st').
Proof.
  intros Ha Ht Hc He Hv msg st'.
  assert (walk ev clock nm edges (S fuel) cid visited st =
            (let* nxt := next_id edges cid in
             walk ev clock nm edges fuel nxt ({[k]} ∪ visited) st')) as Hw.
  { erewrite walk_continue; [reflexivity | exact Ha |].
    rewrite (visit_condition _ _ _ _ _ Ht Hc). simpl. rewrite He, Hv. reflexivity. }
  split.
  - intros pre e post t -> Hpre Hfrom Hto.
    rewrite Hw, (next_id_first _ _ _ _ _ Hpre Hfrom Hto). reflexivity.
  - intros Hnone. rewrite Hw, (next_id_none _ _ Hnone). simpl. by apply walk_falsy.
Qed.

Lemma true_condition_continues_witness :
  walk eval_str tick_clock (index_of (scenario_a_nodes "ctx['age'] >= 18"))
       scenario_a_edges 3 (VStr "c1") {[KStr "t1"]}
       (MkState ["[t0] Trigger: start"] of_age 1)
  = walk eval_str tick_clock (index_of (scenario_a_nodes "ctx['age'] >= 18"))
         scenario_a_edges 2 (VStr "a1") ({[KStr "c1"]} ∪ {[KStr "t1"]})
         (MkState ["[t0] Trigger: start"; "[t1] Condition 'ctx['age'] >= 18' -> True"]
                  of_age 2).
Proof.
  assert (arrives (index_of (scenario_a_nodes "ctx['age'] >= 18")) (VStr "c1")
            {[KStr "t1"]} (KStr "c1")
            (mk_node "c1" "condition" [("expr", VStr "ctx['age'] >= 18")])) as Ha
    by solve_arrives.
  destruct (true_condition_continues eval_str tick_clock _ scenario_a_edges 2 _ _ _ _
              [("expr", VStr "ctx['age'] >= 18")] (VBool true) of_age
              (MkState ["[t0] Trigger: start"] of_age 1) Ha) as [Hfirst _];
    [reflexivity..|].
  apply (Hfirst [mk_edge "t1" "c1"] (mk_edge "c1" "a1") [] (VStr "a1")).
  - reflexivity.
  - repeat constructor.
  - reflexivity.
  - reflexivity.
Defined.

(** * The mini-app catalogue *)

Lemma miniapp_detail_cases (app_id : string) :
  miniapp_detail app_id =
    if String.eqb "vault" app_id then Done (Reply (MINIAPPS !!! 0%nat))
    else if String.eqb "tasks" app_id then Done (Reply (MINIAPPS !!! 1%nat))
    else Done (HTTPException 404 "Mini-app not found").
Proof. reflexivity. Qed.

(** X9.  Listing and detail agree: every mini-app of the listing is what
    [miniapp_detail] returns for its own id, and whatever
    [miniapp_detail] returns for an id is a mini-app of the listing that
    carries this id. *)
Theorem miniapp_detail_matches_listing (app_id : string) (m : dictT) :
  (m ∈ miniapps →
   ∃ id, dict_get "id" m = Some (VStr id) ∧ miniapp_detail id = Done (Reply m))
  ∧ (miniapp_detail app_id = Done (Reply m) →
     m ∈ miniapps ∧ dict_get "id" m = Some (VStr app_id)).
Proof.
  split.
  - unfold miniapps, MINIAPPS. rewrite !elem_of_cons, elem_of_nil.
    intros [->|[->|[]]]; [exists "vault" | exists "tasks"]; split; reflexivity.
  - rewrite miniapp_detail_cases.
    destruct (String.eqb_spec "vault" app_id) as [<-|_].
    { intros [= <-]. split; [left | reflexivity]. }
    destruct (String.eqb_spec "tasks" app_id) as [<-|_]; [|done].
    intros [= <-]. split; [right; left | reflexivity].
Qed.

Lemma miniapp_detail_matches_listing_witness :
  ∃ id, dict_get "id" (MINIAPPS !!! 1%nat) = Some (VStr id)
        ∧ miniapp_detail id = Done (Reply (MINIAPPS !!! 1%nat)).
Proof.
  apply (miniapp_detail_matches_listing "tasks" (MINIAPPS !!! 1%nat)).
  right. left.
Defined.

(** X10.  An id that no listed mini-app carries is answered with
    [HTTPException 404 "Mini-app not found"], and only such an id is; the
    lookup [m["id"]] never raises. *)
Theorem miniapp_detail_not_found (app_id : string) :
  (miniapp_detail app_id = Done (HTTPException 404 "Mini-app not found")
   ↔ ∀ m, m ∈ miniapps → dict_get "id" m ≠ Some (VStr app_id))
  ∧ ∀ e, miniapp_detail app_id ≠ Raised e.
Proof.
  rewrite miniapp_detail_cases. split; [split|].
  - intros H m. unfold miniapps, MINIAPPS. rewrite !elem_of_cons, elem_of_nil.
    destruct (String.eqb_spec "vault" app_id) as [|Hv]; [done|].
    destruct (String.eqb_spec "tasks" app_id) as [|Ht]; [done|].
    intros [->|[->|[]]]; simpl; congruence.
  - intros H.
    destruct (String.eqb_spec "vault" app_id) as [<-|_].
    { exfalso. apply (H (MINIAPPS !!! 0%nat)); [left | reflexivity]. }
    destruct (String.eqb_spec "tasks" app_id) as [<-|_]; [|done].
    exfalso. apply (H (MINIAPPS !!! 1%nat)); [right; left | reflexivity].
  - intros e. by repeat case_match.
Qed.

Lemma miniapp_detail_not_found_witness :
  miniapp_detail "notes" = Done (HTTPException 404 "Mini-app not found").
Proof.
  apply (miniapp_detail_not_found "notes").
  intros m. unfold miniapps, MINIAPPS. rewrite !elem_of_cons, elem_of_nil.
  intros [->|[->|[]]]; discriminate.
Defined.

(** * The registry of open sockets *)

Section Registry.

Import ConnectionManager.

Lemma list_remove_first (x : WebSocket) (l1 l2 : list WebSocket) :
  x ∉ l1 → list_remove x (l1 ++ x :: l2)%list = Some (l1 ++ l2)%list.
Proof.
  induction l1 as [|y l1 IH]; simpl; intros Hx.
  - by rewrite decide_True.
  - apply not_elem_of_cons in Hx as [Hne Hx].
    rewrite decide_False by done. by rewrite IH.
Qed.

Lemma elem_of_first_split (x : WebSocket) (l : list WebSocket) :
  x ∈ l → ∃ l1 l2, l = (l1 ++ x :: l2)%list ∧ x ∉ l1.
Proof.
  induction l as [|y l IH]; [by intros ?%elem_of_nil|].
  destruct (decide (y = x)) as [->|Hne].
  - intros _. exists [], l. split; [done | apply not_elem_of_nil].
  - intros [?|Hin]%elem_of_cons; [congruence|].
    destruct (IH Hin) as (l1 & l2 & -> & Hx).
    exists (y :: l1), l2. split; [done|]. apply not_elem_of_cons. split; [congruence | done].
Qed.

Lemma subscribers_insert (active : registry) (chat_id c : string) (l : list WebSocket) :
  subscribers (<[chat_id := l]> active) c
  = if decide (c = chat_id) then l else subscribers active c.
Proof.
  unfold subscribers. case_decide as Hd.
  - subst. by rewrite lookup_insert_eq.
  - by rewrite lookup_insert_ne.
Qed.

(** X11.  [disconnect] never raises and never drops a chat from the
    registry.  When the socket is registered under the chat, exactly its
    first entry goes and the other entries keep their order; otherwise,
    also for an unknown chat, the registry stays as it is.  Other chats
    are not touched. *)
Theorem disconnect_removes_first_entry (chat_id : string) (websocket : WebSocket)
    (active : registry) :
  ∃ active',
    disconnect chat_id websocket active = Some active'
    ∧ dom active' = dom active
    ∧ (∀ c, c ≠ chat_id → subscribers active' c = subscribers active c)
    ∧ (websocket ∉ subscribers active chat_id → active' = active)
    ∧ (websocket ∈ subscribers active chat_id →
       ∃ l1 l2, subscribers active chat_id = (l1 ++ websocket :: l2)%list
                ∧ (websocket ∉ l1)
                ∧ subscribers active' chat_id = (l1 ++ l2)%list).
Proof.
  unfold disconnect, subscribers.
  destruct (active !! chat_id) as [l|] eqn:Hl; simpl.
  - case_decide as Hin.
    + destruct (elem_of_first_split _ _ Hin) as (l1 & l2 & -> & Hx).
      rewrite (list_remove_first _ _ _ Hx). simpl. eexists. split; [done|].
      split; [by apply dom_insert_lookup_L|].
      split; [intros c Hc; by rewrite lookup_insert_ne|].
      split; [done|]. intros _. exists l1, l2. by rewrite lookup_insert_eq.
    + exists active. rewrite Hl. simpl. by repeat split.
  - exists active. rewrite Hl. simpl. repeat split; try done.
    by intros ?%elem_of_nil.
Qed.

Lemma disconnect_removes_first_entry_witness :
  ∃ active' l1 l2,
    disconnect "c" 1 {["c" := [1; 2; 1]]} = Some active'
    ∧ subscribers {["c" := [1; 2; 1]]} "c" = (l1 ++ 1 :: l2)%list
    ∧ (1 ∉ l1)
    ∧ subscribers active' "c" = (l1 ++ l2)%list.
Proof.
  destruct (disconnect_removes_first_entry "c" 1 {["c" := [1; 2; 1]]})
    as (a & Hd & _ & _ & _ & H).
  destruct H as (l1 & l2 & Hs & Hx & Ha); [vm_compute; left|].
  exists a, l1, l2. repeat split; assumption.
Defined.

(** X12.  Connecting and disconnecting are inverse on the subscriber
    lists: once [accept] has returned, [connect] appends the socket to
    the list of its chat, and for a socket that was not registered there
    a following [disconnect] gives every chat the list it had before. *)
Theorem connect_then_disconnect (chat_id : string) (websocket : WebSocket)
    (active : registry) :
  websocket ∉ subscribers active chat_id →
  ∃ a1 a2,
    connect true chat_id websocket active = Some a1
    ∧ subscribers a1 chat_id = (subscribers active chat_id ++ [websocket])%list
    ∧ disconnect chat_id websocket a1 = Some a2
    ∧ ∀ c, subscribers a2 c = subscribers active c.
Proof.
  intros Hx. unfold connect. eexists _, _. split; [reflexivity|].
  split; [by rewrite subscribers_insert, decide_True|].
  unfold disconnect. rewrite lookup_insert_eq.
  rewrite decide_True by (apply elem_of_app; right; left).
  rewrite (list_remove_first _ _ [] Hx). simpl. rewrite app_nil_r, insert_insert_eq.
  split; [reflexivity|].
  intros c. rewrite subscribers_insert. by case_decide; subst.
Qed.

Lemma connect_then_disconnect_witness :
  ∃ a1 a2,
    connect true "c" 3 {["c" := [1; 2]]} = Some a1
    ∧ subscribers a1 "c" = (subscribers {["c" := [1; 2]]} "c" ++ [3])%list
    ∧ disconnect "c" 3 a1 = Some a2
    ∧ ∀ c, subscribers a2 c = subscribers {["c" := [1; 2]]} c.
Proof.
  apply (connect_then_disconnect "c" 3 {["c" := [1; 2]]}).
  unfold subscribers. rewrite lookup_singleton_eq. simpl.
  rewrite !elem_of_cons, elem_of_nil. intros [?|[?|[]]]; discriminate.
Defined.

(** The loop of [broadcast], started when the sockets of [done] have been
    served: the failed ones are gone from the chat's list, the others are
    still there, followed by the sockets yet to serve. *)
Lemma broadcast_loop_spec (send_json : WebSocket → bool) (chat_id : string) :
  ∀ (rest done : list WebSocket) (active : registry) (sent : list WebSocket),
    subscribers active chat_id = (filter (λ w, send_json w = true) done ++ rest)%list →
    ∃ active',
      broadcast_loop send_json chat_id rest active sent
        = Some ((sent ++ filter (λ w, send_json w = true) rest)%list, active')
      ∧ ∀ c, subscribers active' c =
             if decide (c = chat_id)
             then filter (λ w, send_json w = true) (done ++ rest)%list
             else subscribers active c.
Proof.
  induction rest as [|w rest IH]; intros done active sent Hs; simpl.
  - exists active. rewrite !app_nil_r. split; [done|].
    intros c. case_decide; [subst; by rewrite Hs, app_nil_r | done].
  - destruct (send_json w) eqn:Hw.
    + destruct (IH (done ++ [w])%list active (sent ++ [w])%list) as (a & Ha & Hsub).
      { rewrite Hs, filter_app, filter_cons_True by done.
        by rewrite filter_nil, <- app_assoc. }
      exists a. rewrite Ha, filter_cons_True, <- !app_assoc by done.
      split; [done|]. intros c. rewrite Hsub. by rewrite <- app_assoc.
    + assert (w ∉ filter (λ w, send_json w = true) done) as Hx.
      { rewrite list_elem_of_filter. intros [? _]. congruence. }
      unfold disconnect. unfold subscribers in Hs.
      destruct (active !! chat_id) as [l|] eqn:Hl; simpl in Hs;
        [subst l | by destruct (filter _ done)].
      rewrite decide_True by (apply elem_of_app; right; left).
      rewrite (list_remove_first _ _ _ Hx). simpl.
      destruct (IH (done ++ [w])%list
                  (<[chat_id := (filter (λ w, send_json w = true) done ++ rest)%list]> active)
                  sent) as (a & Ha & Hsub).
      { rewrite subscribers_insert, decide_True by done.
        rewrite filter_app, filter_cons_False by congruence.
        by rewrite filter_nil, app_nil_r. }
      exists a. rewrite Ha, filter_cons_False by congruence.
      split; [done|]. intros c. rewrite Hsub, subscribers_insert, <- app_assoc.
      by case_decide.
Qed.

(** X13.  A broadcast never raises.  It sends to the sockets of the chat
    in registration order; those whose [send_json] returns get the
    message, those whose [send_json] raises are removed, so that after it
    the chat's list is the list of the sockets reached, and the lists of
    the other chats are as before. *)
Theorem broadcast_keeps_reachable (send_json : WebSocket → bool) (chat_id : string)
    (active : registry) :
  ∃ active',
    broadcast send_json chat_id active
      = Some (filter (λ w, send_json w = true) (subscribers active chat_id), active')
    ∧ ∀ c, subscribers active' c =
           if decide (c = chat_id)
           then filter (λ w, send_json w = true) (subscribers active chat_id)
           else subscribers active c.
Proof.
  unfold broadcast.
  destruct (broadcast_loop_spec send_json chat_id (subscribers active chat_id) [] active [])
    as (a & Ha & Hsub); [done|].
  exists a. split; [exact Ha | exact Hsub].
Qed.

Lemma broadcast_loop_all_sent (send_json : WebSocket → bool) (chat_id : string)
    (copy : list WebSocket) (active : registry) (sent : list WebSocket) :
  Forall (λ w, send_json w = true) copy →
  broadcast_loop send_json chat_id copy active sent = Some ((sent ++ copy)%list, active).
Proof.
  intros H. revert sent. induction H as [|w copy Hw _ IH]; intros sent; simpl.
  - by rewrite app_nil_r.
  - rewrite Hw, IH. by rewrite <- app_assoc.
Qed.

(** X14.  After a broadcast the registry holds only sockets that could
    be reached: a second broadcast to the same chat, with the sockets
    answering as before, reaches the same sockets and leaves the registry
    exactly as it is. *)
Theorem broadcast_twice (send_json : WebSocket → bool) (chat_id : string)
    (active a1 : registry) (sent : list WebSocket) :
  broadcast send_json chat_id active = Some (sent, a1) →
  broadcast send_json chat_id a1 = Some (sent, a1).
Proof.
  intros H.
  destruct (broadcast_loop_spec send_json chat_id (subscribers active chat_id) [] active [])
    as (a & Ha & Hsub); [done|].
  unfold broadcast in H. rewrite Ha in H. injection H as <- <-.
  unfold broadcast. specialize (Hsub chat_id). rewrite decide_True in Hsub by done.
  rewrite Hsub. apply broadcast_loop_all_sent.
  apply Forall_forall. intros w Hw. by apply list_elem_of_filter in Hw as [? _].
Qed.

Lemma broadcast_twice_witness :
  broadcast (λ w, bool_decide (w ≠ 2)) "c" (<["c" := [1; 3]]> {["c" := [1; 2; 3]]})
  = Some ([1; 3], <["c" := [1; 3]]> {["c" := [1; 2; 3]]}).
Proof.
  apply (broadcast_twice (λ w, bool_decide (w ≠ 2)) "c" {["c" := [1; 2; 3]]}).
  reflexivity.
Defined.

End Registry.
